(** * vantage/task.py: task resolution and execution-environment pipeline

    A shallow embedding of [vantage/task.py].  Python values are a small
    inductive universe ([pyval]), dictionaries are insertion-ordered
    association lists (iteration order is observable: [env.items()],
    [env.keys()] and [image.items()] all feed ordered output), mutable
    objects shared between calls (the click context object and the
    metadata objects held by [load_meta]'s [lru_cache]) live in an explicit
    store, and exceptions are outcomes of a small state-and-error monad. *)

From Stdlib Require Import List String Ascii Bool Arith ZArith Lia.
From Stdlib Require Import DecimalString.
Import ListNotations.
Open Scope string_scope.
Open Scope list_scope.

Set Implicit Arguments.
Set Warnings "-register-all".

(** ** Python values *)

Module Py.

(** The values [yaml.SafeLoader] builds and the task runner handles.
    Characters are code points below 256; mapping keys are strings. *)
Inductive pyval : Type :=
| PNone
| PBool (b : bool)
| PInt (z : Z)
| PStr (s : string)
| PList (l : list pyval)
| PDict (d : list (string * pyval)).

Definition dict := list (string * pyval).

(** [bool(v)] *)
Definition truthy (v : pyval) : bool :=
  match v with
  | PNone => false
  | PBool b => b
  | PInt z => negb (Z.eqb z 0)
  | PStr s => negb (String.eqb s EmptyString)
  | PList l => match l with [] => false | _ => true end
  | PDict d => match d with [] => false | _ => true end
  end.

Definition is_none (v : pyval) : bool :=
  match v with PNone => true | _ => false end.

(** *** Dictionaries: insertion-ordered, keys unique *)

Section Dict.
Variable V : Type.

Fixpoint dict_get (k : string) (d : list (string * V)) : option V :=
  match d with
  | [] => None
  | (k', v) :: d' => if String.eqb k k' then Some v else dict_get k d'
  end.

(** [d[k] = v]: an existing key keeps its position, a new key goes last. *)
Fixpoint dict_set (k : string) (v : V) (d : list (string * V))
  : list (string * V) :=
  match d with
  | [] => [(k, v)]
  | (k', v') :: d' =>
      if String.eqb k k' then (k', v) :: d' else (k', v') :: dict_set k v d'
  end.

(** [d.update(o)] *)
Definition dict_update (d o : list (string * V)) : list (string * V) :=
  fold_left (fun acc kv => dict_set (fst kv) (snd kv) acc) o d.

Fixpoint dict_remove (k : string) (d : list (string * V))
  : list (string * V) :=
  match d with
  | [] => []
  | (k', v) :: d' =>
      if String.eqb k k' then d' else (k', v) :: dict_remove k d'
  end.

(** [d.pop(k)]: the value and the dictionary without the key. *)
Definition dict_pop (k : string) (d : list (string * V))
  : option (V * list (string * V)) :=
  match dict_get k d with
  | Some v => Some (v, dict_remove k d)
  | None => None
  end.

Definition keys (d : list (string * V)) : list string := map fst d.

Definition has_key (k : string) (d : list (string * V)) : bool :=
  match dict_get k d with Some _ => true | None => false end.

Definition wf_dict (d : list (string * V)) : Prop := NoDup (keys d).
End Dict.

(** [d.get(k)]: [None] when the key is missing. *)
Definition get_or_none (k : string) (d : dict) : pyval :=
  match dict_get k d with Some v => v | None => PNone end.

(** *** Strings *)

Fixpoint starts_with (p s : string) : bool :=
  match p, s with
  | EmptyString, _ => true
  | String a p', String b s' => Ascii.eqb a b && starts_with p' s'
  | String _ _, EmptyString => false
  end.

(** [needle in s] *)
Fixpoint contains (needle s : string) : bool :=
  starts_with needle s ||
  match s with
  | EmptyString => false
  | String _ s' => contains needle s'
  end.

(** [s.replace(old, new)] for a non-empty [old]: occurrences are found left
    to right and do not overlap.  [skip] counts the characters of a matched
    occurrence that are still to be dropped. *)
Fixpoint replace_from (old new : string) (skip : nat) (s : string) : string :=
  match s with
  | EmptyString => EmptyString
  | String c s' =>
      match skip with
      | S k => replace_from old new k s'
      | O =>
          if starts_with old s
          then new ++ replace_from old new (String.length old - 1) s'
          else String c (replace_from old new 0 s')
      end
  end.

(** [s.replace] with an empty [old] puts [new] before every character and
    at the end. *)
Fixpoint intersperse (new s : string) : string :=
  match s with
  | EmptyString => new
  | String c s' => new ++ String c (intersperse new s')
  end.

Definition replace (old new s : string) : string :=
  match old with
  | EmptyString => intersperse new s
  | _ => replace_from old new 0 s
  end.

(** [s.split(sep, maxsplit)] for a non-empty [sep]; [cur] is the part being
    read, reversed. *)
Fixpoint rev_string (acc s : string) : string :=
  match s with
  | EmptyString => acc
  | String c s' => rev_string (String c acc) s'
  end.

Fixpoint split_from (sep : string) (skip maxsplit : nat) (cur s : string)
  : list string :=
  match s with
  | EmptyString => [rev_string EmptyString cur]
  | String c s' =>
      match skip with
      | S k => split_from sep k maxsplit cur s'
      | O =>
          match maxsplit with
          | O => [rev_string s cur]
          | S m =>
              if starts_with sep s
              then rev_string EmptyString cur
                   :: split_from sep (String.length sep - 1) m EmptyString s'
              else split_from sep 0 maxsplit (String c cur) s'
          end
      end
  end.

Definition split (sep : string) (maxsplit : nat) (s : string) : list string :=
  split_from sep 0 maxsplit EmptyString s.

(** [s.splitlines()]: the line boundaries among the code points below 256
    are LF, VT, FF, CR (CR LF counts once), FS, GS, RS and NEL. *)
Definition is_line_break (c : ascii) : bool :=
  let n := nat_of_ascii c in
  (Nat.eqb n 10 || Nat.eqb n 11 || Nat.eqb n 12 || Nat.eqb n 13 ||
   Nat.eqb n 28 || Nat.eqb n 29 || Nat.eqb n 30 || Nat.eqb n 133)%bool.

Fixpoint splitlines_from (cur s : string) : list string :=
  match s with
  | EmptyString =>
      match cur with EmptyString => [] | _ => [rev_string EmptyString cur] end
  | String c s' =>
      if is_line_break c then
        rev_string EmptyString cur ::
        (if Nat.eqb (nat_of_ascii c) 13 then
           match s' with
           | String c' s'' =>
               if Nat.eqb (nat_of_ascii c') 10
               then splitlines_from EmptyString s''
               else splitlines_from EmptyString s'
           | EmptyString => splitlines_from EmptyString s'
           end
         else splitlines_from EmptyString s')
      else splitlines_from (String c cur) s'
  end.

Definition splitlines (s : string) : list string :=
  splitlines_from EmptyString s.

(** [str(i)] for an index of [enumerate] *)
Definition str_of_nat (n : nat) : string :=
  NilZero.string_of_uint (Nat.to_uint n).

End Py.

Import Py.

(** ** Paths and the file tree *)

(** A [pathlib.Path] as its components below the root; the model covers
    absolute, normalised paths. *)
Definition Path := list string.

Fixpoint path_eqb (p q : Path) : bool :=
  match p, q with
  | [], [] => true
  | a :: p', b :: q' => String.eqb a b && path_eqb p' q'
  | _, _ => false
  end.

(** [str(path)] *)
Definition str_of_path (p : Path) : string :=
  match p with
  | [] => "/"
  | _ => fold_right (fun c acc => ("/" ++ c ++ acc)%string) EmptyString p
  end.

(** [Path(s)]: empty components and [.] are dropped. *)
Definition path_of_string (s : string) : Path :=
  filter (fun c => negb (String.eqb c EmptyString || String.eqb c "."))
         (Py.split "/" (String.length s) s).

(** [dir_ / name] for a single-component [name] ([plain_name]) *)
Definition join (dir_ : Path) (name : string) : Path := dir_ ++ [name].

(** The characters that end a path component ([/], NUL) or that [glob]
    reads as a pattern ([*], [?] and the opening bracket). *)
Definition is_special (c : ascii) : bool :=
  (Ascii.eqb c "/" || Ascii.eqb c zero
   || Ascii.eqb c "*" || Ascii.eqb c "?" || Ascii.eqb c "[")%bool.

Fixpoint has_special (s : string) : bool :=
  match s with
  | EmptyString => false
  | String c s' => is_special c || has_special s'
  end.

(** A name that is one path component and holds no pattern character: not
    empty, not [.] or [..], without special characters, and of at most 127
    characters, so that it fits a directory entry of 255 bytes at up to two
    bytes a character.  For such a name [dir_ / name] is the entry [name]
    of [dir_], and [dir_.glob] of [name.*] yields the entries of [dir_]
    whose names start with the name and a dot. *)
Definition plain_name (name : string) : bool :=
  match name with
  | EmptyString => false
  | _ => negb (String.eqb name "." || String.eqb name ".."
               || has_special name)
         && Nat.leb (String.length name) 127
  end.

(** [path.parent] *)
Definition parent (p : Path) : Path := removelast p.

(** [path.name] *)
Definition basename (p : Path) : string := last p EmptyString.

(** [name.rfind(".")]: [i] is the index of the head of [s]. *)
Fixpoint rfind_dot (s : string) (i : nat) (found : option nat) : option nat :=
  match s with
  | EmptyString => found
  | String c s' =>
      rfind_dot s' (S i) (if Ascii.eqb c "."%char then Some i else found)
  end.

(** [path.stem]: the name up to its last dot, unless that dot is the first
    or the last character. *)
Definition stem (p : Path) : string :=
  let name := basename p in
  match rfind_dot name 0 None with
  | Some i =>
      if Nat.ltb 0 i && Nat.ltb i (String.length name - 1)
      then substring 0 i name
      else name
  | None => name
  end.

(** Directory entries are listed in the order [iterdir] and [glob] yield
    them; every directory of the tree can be listed and searched.  The
    content of a file is the text [f.read()] returns; for a file
    that cannot be read as text ([read_failure]) it is the bytes of the
    file, one character each. *)
Inductive node : Type :=
| File (executable : bool) (content : string)
| Dir (entries : list (string * node)).

Fixpoint walk (n : node) (p : Path) : option node :=
  match p with
  | [] => Some n
  | c :: p' =>
      match n with
      | Dir entries =>
          match dict_get c entries with
          | Some child => walk child p'
          | None => None
          end
      | File _ _ => None
      end
  end.

Definition node_is_dir (n : option node) : bool :=
  match n with Some (Dir _) => true | _ => false end.

(** [path.is_file() and os.access(path, os.X_OK)] *)
Definition node_is_executable (n : option node) : bool :=
  match n with Some (File x _) => x | _ => false end.

(** ** Outcomes, the store and the world *)

Inductive exn : Type :=
| KeyError (key : string)
| TypeError
| ValueError
| AttributeError
| OSError
| YAMLError
| UsageError
| PermissionError
| UnicodeDecodeError.

(** [Exits] is [SystemExit], which is no [Exception] and which nothing in
    the module catches; [OutOfFuel] is the model's bound on prerequisite
    recursion, not a Python outcome. *)
Inductive outcome (A : Type) : Type :=
| Returns (a : A)
| Raises (e : exn)
| Exits (code : Z)
| OutOfFuel.
Arguments Raises {A} e.
Arguments Exits {A} code.
Arguments OutOfFuel {A}.

(** What the [sh] command object is called with: the positional arguments
    and the keywords [_tty_in], [_env] and [_cwd]. *)
Record invocation : Type := mkInvocation {
  inv_cmd : string;
  inv_args : list pyval;
  inv_tty_in : bool;
  inv_env : dict;
  inv_cwd : pyval
}.

(** The collaborators the module calls but does not define: the task tree
    on disk (unchanged during a run), [yaml.load] (no result for a document
    it rejects), the exit code of a spawned process given the processes
    spawned before it, [os.environ.get("PATH")], and what [path.open()] or
    [f.read()] raise on a regular file that cannot be read as text (no
    read permission: [PermissionError]; bytes that do not decode:
    [UnicodeDecodeError]), if they raise. *)
Record world : Type := mkWorld {
  fs_root : node;
  yaml_load : string -> option pyval;
  spawn : list invocation -> invocation -> Z;
  environ_PATH : option string;
  read_failure : Path -> option exn
}.

(** [functools.lru_cache()] keeps the [maxsize] most recently used
    results, 128 by default, and drops the least recently used one when a
    new result arrives at a full cache. *)
Definition maxsize : nat := 128.

(** The mutable objects: the click context object [ctx.obj], the metadata
    objects held by the [lru_cache] of [load_meta] (keyed by path, oldest
    first), and the processes spawned so far, oldest first.  The store
    stands for the cache as long as it holds at most [maxsize] objects:
    nothing is dropped from it, so what is stated about objects that stay
    cached is stated for stores within that size. *)
Record state : Type := mkState {
  ctx_obj : dict;
  meta_cache : list (Path * pyval);
  trace : list invocation
}.

Definition with_cache (c : list (Path * pyval)) (st : state) : state :=
  mkState (ctx_obj st) c (trace st).

Definition M (A : Type) : Type := state -> outcome A * state.

Definition ret {A} (a : A) : M A := fun st => (Returns a, st).

Definition raise {A} (e : exn) : M A := fun st => (Raises e, st).

(** [sys.exit(code)] *)
Definition sys_exit {A} (code : Z) : M A := fun st => (Exits code, st).

Definition bind {A B} (m : M A) (k : A -> M B) : M B :=
  fun st =>
    match m st with
    | (Returns a, st') => k a st'
    | (Raises e, st') => (Raises e, st')
    | (Exits code, st') => (Exits code, st')
    | (OutOfFuel, st') => (OutOfFuel, st')
    end.

Notation "x <- m ;; k" := (bind m (fun x => k))
  (at level 61, m at next level, right associativity).
Notation "m ;;; k" := (bind m (fun _ => k))
  (at level 61, right associativity).

(** A loop body run over a list, stopping at the first exception. *)
Fixpoint for_each {A} (body : A -> M unit) (l : list A) : M unit :=
  match l with
  | [] => ret tt
  | a :: l' => body a ;;; for_each body l'
  end.

Fixpoint cache_find (p : Path) (c : list (Path * pyval)) : option pyval :=
  match c with
  | [] => None
  | (q, m) :: c' => if path_eqb p q then Some m else cache_find p c'
  end.

Fixpoint cache_modify (p : Path) (f : pyval -> pyval)
         (c : list (Path * pyval)) : list (Path * pyval) :=
  match c with
  | [] => []
  | (q, m) :: c' =>
      if path_eqb p q then (q, f m) :: c' else (q, m) :: cache_modify p f c'
  end.

(** [v.get(k)]: only a mapping has [get]. *)
Definition py_get (v : pyval) (k : string) : M pyval :=
  match v with
  | PDict d => ret (get_or_none k d)
  | _ => raise AttributeError
  end.

(** [d[k]] *)
Definition getitem (d : dict) (k : string) : M pyval :=
  match dict_get k d with
  | Some v => ret v
  | None => raise (KeyError k)
  end.

(** [v.items()] as the verbose listing walks it. *)
Definition py_items (v : pyval) : M unit :=
  match v with
  | PDict _ => ret tt
  | _ => raise AttributeError
  end.

Definition lift {A} (r : exn + A) : M A :=
  match r with
  | inr a => ret a
  | inl e => raise e
  end.

(** ** The module *)

(** [d.update(o)] for whatever [o] the metadata holds.  A mapping is merged
    key by key.  Anything else is iterated for pairs: a two-element list, a
    two-character string (its characters) or a mapping with two keys (its
    keys); the dictionary keeps the pairs set before an element is
    rejected.  A number, a boolean or [None] cannot be iterated, as [o] or
    as an element; a pair whose key is no string would leave the universe
    of [pyval] and is rejected as well. *)
Definition as_pair (x : pyval) : exn + (string * pyval) :=
  match x with
  | PList [PStr k; v] => inr (k, v)
  | PList [_; _] => inl TypeError
  | PList _ => inl ValueError
  | PStr (String a (String b EmptyString)) =>
      inr (String a EmptyString, PStr (String b EmptyString))
  | PStr _ => inl ValueError
  | PDict [(k, _); (k', _)] => inr (k, PStr k')
  | PDict _ => inl ValueError
  | _ => inl TypeError
  end.

Fixpoint update_pairs (d : dict) (l : list pyval) : dict * (exn + unit) :=
  match l with
  | [] => (d, inr tt)
  | x :: l' =>
      match as_pair x with
      | inr (k, v) => update_pairs (dict_set k v d) l'
      | inl e => (d, inl e)
      end
  end.

Definition update_from (d : dict) (o : pyval) : dict * (exn + unit) :=
  match o with
  | PDict o' => (dict_update d o', inr tt)
  | PList l => update_pairs d l
  | PStr s =>
      update_pairs d (map (fun c => PStr (String c EmptyString))
                          (list_ascii_of_string s))
  | _ => (d, inl TypeError)
  end.

Definition nl : string := String "010"%char EmptyString.

Inductive env_ref : Type :=
| CtxObj
| MetaDefaults (p : Path).

(** What click hands to its dispatcher. *)
Inductive task : Type :=
| Command (name : string) (path : Path) (help : pyval)
| Group (name : string) (path : Path) (commands : list (string * task)).

Definition task_name (t : task) : string :=
  match t with
  | Command n _ _ => n
  | Group n _ _ => n
  end.

(** [group.add_command(cmd)] registers under the command's name. *)
Definition add_command (cmd : task) (commands : list (string * task))
  : list (string * task) :=
  dict_set (task_name cmd) cmd commands.

(** [get_flag] *)
Definition get_flag (env yml default : pyval) : pyval :=
  if is_none env then
    if is_none yml then default else yml
  else env.

(** One step of a loop of [insert_env_vals]:
    [if needle in str: str = str.replace(needle, v)].  [in] on a list or a
    mapping is a membership test and [replace] is then missing; on other
    non-strings [in] itself fails. *)
Definition substitute (needle : string) (v : pyval) (str : pyval)
  : exn + pyval :=
  match str with
  | PStr s =>
      if contains needle s then
        match v with
        | PStr r => inr (PStr (replace needle r s))
        | _ => inl TypeError
        end
      else inr str
  | PList l =>
      if existsb (fun x => match x with
                           | PStr t => String.eqb t needle
                           | _ => false
                           end) l
      then inl AttributeError else inr str
  | PDict d => if has_key needle d then inl AttributeError else inr str
  | _ => inl TypeError
  end.

Fixpoint substitute_all (subs : list (string * pyval)) (str : pyval)
  : exn + pyval :=
  match subs with
  | [] => inr str
  | (needle, v) :: rest =>
      match substitute needle v str with
      | inr str' => substitute_all rest str'
      | inl e => inl e
      end
  end.

Definition enumerate {A} (l : list A) : list (nat * A) :=
  combine (seq 0 (List.length l)) l.

Definition env_needles (env : dict) : list (string * pyval) :=
  map (fun kv => (("$" ++ fst kv)%string, snd kv)) env.

Definition arg_needles (args : list string) : list (string * pyval) :=
  map (fun iv => (("$" ++ str_of_nat (fst iv))%string, PStr (snd iv)))
      (enumerate args).

(** [insert_env_vals]: the loop over [env.items()], then the loop over
    [enumerate(args)]. *)
Definition insert_env_vals (str : pyval) (env : dict) (args : list string)
  : exn + pyval :=
  match substitute_all (env_needles env) str with
  | inr str' => substitute_all (arg_needles args) str'
  | inl e => inl e
  end.

(** The image options of [task_cmd], lines 50 to 61. *)
Fixpoint flatten_list (k : string) (v : list pyval) (env : dict)
         (args : list string) : exn + list pyval :=
  match v with
  | [] => inr []
  | w :: v' =>
      match insert_env_vals w env args with
      | inl e => inl e
      | inr w' =>
          match flatten_list k v' env args with
          | inl e => inl e
          | inr rest => inr (PStr ("--" ++ k)%string :: w' :: rest)
          end
      end
  end.

Definition flatten_item (k : string) (v : pyval) (env : dict)
           (args : list string) : exn + list pyval :=
  match v with
  | PList l => flatten_list k l env args
  | PBool b => inr (if b then [PStr ("--" ++ k)%string] else [])
  | _ =>
      match insert_env_vals v env args with
      | inl e => inl e
      | inr v' => inr [PStr ("--" ++ k)%string; v']
      end
  end.

Fixpoint flatten_items (image : dict) (env : dict) (args : list string)
  : exn + list pyval :=
  match image with
  | [] => inr []
  | (k, v) :: image' =>
      match flatten_item k v env args with
      | inl e => inl e
      | inr opts =>
          match flatten_items image' env args with
          | inl e => inl e
          | inr rest => inr (opts ++ rest)
          end
      end
  end.

Section Task.

Variable w : world.

Definition lookup_node (p : Path) : option node := walk (fs_root w) p.

(** [is_executable] *)
Definition is_executable (p : Path) : bool :=
  node_is_executable (lookup_node p).

Definition is_dir (p : Path) : bool := node_is_dir (lookup_node p).

(** The body of [load_meta] once the file is read. *)
Definition parse_meta (content : string) : exn + pyval :=
  match find (contains "---") (splitlines content) with
  | None => inr (PDict [])
  | Some sep =>
      match Py.split sep 2 content with
      | [_; meta; script] =>
          let comment_marker := replace "---" EmptyString sep in
          match yaml_load w (replace (nl ++ comment_marker)%string nl meta)
          with
          | Some v => inr v
          | None => inl YAMLError
          end
      | _ => inl ValueError
      end
  end.

(** [path.open()] and [f.read()]: the text of a regular file, unless
    opening or reading it fails. *)
Definition read_text (p : Path) : exn + string :=
  match lookup_node p with
  | Some (File _ content) =>
      match read_failure w p with
      | Some e => inl e
      | None => inr content
      end
  | _ => inl OSError
  end.

(** [load_meta] under [lru_cache]: a cached path yields the stored object
    itself; an exception stores nothing. *)
Definition load_meta (path : Path) : M pyval :=
  fun st =>
    match cache_find path (meta_cache st) with
    | Some meta => (Returns meta, st)
    | None =>
        match read_text path with
        | inl e => (Raises e, st)
        | inr content =>
            match parse_meta content with
            | inr meta =>
                (Returns meta,
                 with_cache (meta_cache st ++ [(path, meta)]) st)
            | inl e => (Raises e, st)
            end
        end
    end.

(** The metadata object of a task is the one the cache holds for its path;
    a reference is read through the store, since a prerequisite may have
    changed the object meanwhile. *)
Definition meta_at (path : Path) (st : state) : pyval :=
  match cache_find path (meta_cache st) with
  | Some meta => meta
  | None => PNone
  end.

Definition read_meta (path : Path) : M pyval :=
  fun st => (Returns (meta_at path st), st).

Definition defaults_of (meta : pyval) : dict :=
  match meta with
  | PDict m =>
      match dict_get "defaults" m with
      | Some (PDict d) => d
      | _ => []
      end
  | _ => []
  end.

(** The dictionary an environment reference denotes. *)
Definition env_at (env : env_ref) (st : state) : dict :=
  match env with
  | CtxObj => ctx_obj st
  | MetaDefaults p => defaults_of (meta_at p st)
  end.

Definition read_env (env : env_ref) : M dict :=
  fun st => (Returns (env_at env st), st).

Definition set_field (k : string) (v : pyval) (meta : pyval) : pyval :=
  match meta with
  | PDict m => PDict (dict_set k v m)
  | _ => meta
  end.

Definition assign_env (env : env_ref) (d : dict) (st : state) : state :=
  match env with
  | CtxObj => mkState d (meta_cache st) (trace st)
  | MetaDefaults p =>
      with_cache (cache_modify p (set_field "defaults" (PDict d))
                               (meta_cache st)) st
  end.

Definition write_env (env : env_ref) (d : dict) : M unit :=
  fun st => (Returns tt, assign_env env d st).

(** The image mapping of the cached metadata object, changed in place. *)
Definition assign_image (path : Path) (image : dict) (st : state) : state :=
  with_cache (cache_modify path (set_field "image" (PDict image))
                           (meta_cache st)) st.

Definition write_image (path : Path) (image : dict) : M unit :=
  fun st => (Returns tt, assign_image path image st).

(** [update_env]; [meta] is the object cached for the path.  A non-mapping
    [defaults] has no [update]. *)
Definition update_env (meta : Path) (env : env_ref) : M env_ref :=
  m <- read_meta meta ;;
  overrides <- py_get m "overrides" ;;
  (if is_none overrides then ret tt
   else
     e <- read_env env ;;
     verbose <- getitem e "VG_VERBOSE" ;;
     (if truthy verbose then py_items overrides else ret tt) ;;;
     write_env env (fst (update_from e overrides)) ;;;
     lift (snd (update_from e overrides))) ;;;
  m <- read_meta meta ;;
  defaults <- py_get m "defaults" ;;
  if is_none defaults then ret env
  else
    e <- read_env env ;;
    verbose <- getitem e "VG_VERBOSE" ;;
    (if truthy verbose then py_items defaults else ret tt) ;;;
    match defaults with
    | PDict d =>
        write_env (MetaDefaults meta) (dict_update d e) ;;;
        ret (MetaDefaults meta)
    | _ => raise AttributeError
    end.

(** [as_command]; its own [lru_cache] only saves rebuilding an equal
    object and is left out. *)
Definition as_command (path : Path) : M task :=
  meta <- load_meta path ;;
  help <- py_get meta "help-text" ;;
  ret (Command (stem path) path help).

(** The loop of [as_group] over [path.iterdir()]. *)
Fixpoint group_children (path : Path) (entries : list (string * node))
         (commands : list (string * task)) : M (list (string * task)) :=
  match entries with
  | [] => ret commands
  | (c, child) :: entries' =>
      let task_path := join path c in
      match child with
      | Dir _ =>
          group_children path entries'
            (add_command (Group (stem task_path) task_path []) commands)
      | File executable _ =>
          if executable then
            cmd <- as_command task_path ;;
            group_children path entries' (add_command cmd commands)
          else group_children path entries' commands
      end
  end.

(** [as_group(path)] with [walk=True], for the directory [n] at [path];
    like that of [as_command], its [lru_cache] is left out. *)
Definition as_group (n : node) (path : Path) : M task :=
  match n with
  | Dir entries =>
      commands <- group_children path entries [] ;;
      ret (Group (stem path) path commands)
  | File _ _ => raise OSError
  end.

(** [dir_.glob(f"{name}.*")] for a name without pattern characters
    ([plain_name]): the entries whose name starts with the name and a
    dot. *)
Definition glob (entries : list (string * node)) (name : string)
  : list (string * node) :=
  filter (fun e => starts_with (name ++ ".")%string (fst e)) entries.

Definition entry_is_executable (e : string * node) : bool :=
  node_is_executable (Some (snd e)).

(** [get_task_from_dir] for the directory [n] at [dir_].  The loop over the
    glob rebinds [task_path], so the directory test after the loop looks at
    the last glob match when there is one, and at [dir_ / name] otherwise;
    [target] is the entry name [task_path] then ends in. *)
Fixpoint get_task_from_node (n : node) (dir_ : Path) (name : string)
         {struct n} : M (option task) :=
  match n with
  | File _ _ => ret None
  | Dir entries =>
      if node_is_executable (dict_get name entries) then
        cmd <- as_command (join dir_ name) ;;
        ret (Some cmd)
      else
        let matches := glob entries name in
        match find entry_is_executable matches with
        | Some (c, _) =>
            cmd <- as_command (join dir_ c) ;;
            ret (Some cmd)
        | None =>
            let target :=
              match rev matches with
              | (c, _) :: _ => c
              | [] => name
              end in
            (fix scan (es : list (string * node)) : M (option task) :=
               match es with
               | [] => ret None
               | (c, child) :: es' =>
                   if String.eqb target c then
                     match child with
                     | Dir _ =>
                         nested <-
                           get_task_from_node child (join dir_ c) name ;;
                         match nested with
                         | Some t => ret (Some t)
                         | None =>
                             g <- as_group child (join dir_ c) ;;
                             ret (Some g)
                         end
                     | File _ _ => ret None
                     end
                   else scan es'
               end) entries
        end
  end.

Definition get_task_from_dir (dir_ : Path) (name : string)
  : M (option task) :=
  match lookup_node dir_ with
  | Some n => get_task_from_node n dir_ name
  | None => ret None
  end.

Definition to_path (v : pyval) : exn + Path :=
  match v with
  | PStr s => inr (path_of_string s)
  | _ => inl TypeError
  end.

Definition root_dir (env : dict) (override subdir : string) : exn + Path :=
  if truthy (get_or_none override env)
  then to_path (get_or_none override env)
  else
    match dict_get "VG_APP_DIR" env with
    | None => inl (KeyError "VG_APP_DIR")
    | Some app_dir =>
        match to_path app_dir with
        | inr p => inr (join p subdir)
        | inl e => inl e
        end
    end.

(** [get_task_dir] *)
Definition get_task_dir (env : dict) : exn + Path :=
  root_dir env "VG_TASKS_DIR" "tasks".

(** [get_plugins_dir] *)
Definition get_plugins_dir (env : dict) : exn + Path :=
  root_dir env "VG_PLUGINS_DIR" ".vg-plugins".

(** The loop of [get_task] over the two roots; falling off its end is
    Python's implicit [return None].  [dir_ / name] needs a string. *)
Fixpoint search_roots (roots : list Path) (name : pyval)
  : M (option task) :=
  match roots with
  | [] => ret None
  | dir_ :: roots' =>
      if is_dir dir_ then
        match name with
        | PStr s =>
            found <- get_task_from_dir dir_ s ;;
            match found with
            | Some t => ret (Some t)
            | None => search_roots roots' name
            end
        | _ => raise TypeError
        end
      else search_roots roots' name
  end.

(** [get_task] *)
Definition get_task (env : env_ref) (name : pyval) : M (option task) :=
  e <- read_env env ;;
  task_dir <- lift (get_task_dir e) ;;
  plugins_dir <- lift (get_plugins_dir e) ;;
  search_roots [task_dir; plugins_dir] name.

(** The stems [get_task_names] yields. *)
Definition listed_names (dir_ : Path) : list string :=
  match lookup_node dir_ with
  | Some (Dir entries) =>
      map (fun e => stem (join dir_ (fst e)))
          (filter (fun e => node_is_dir (Some (snd e))
                            || entry_is_executable e) entries)
  | _ => []
  end.

Definition get_task_names (env : dict) : M (list string) :=
  task_dir <- lift (get_task_dir env) ;;
  plugins_dir <- lift (get_plugins_dir env) ;;
  ret (listed_names task_dir ++ listed_names plugins_dir).

(** Running the command object: the world decides the exit code, the
    invocation is recorded. *)
Definition run_command (inv : invocation) : M Z :=
  fun st =>
    (Returns (spawn w (trace st) inv),
     mkState (ctx_obj st) (meta_cache st) (trace st ++ [inv])).

Definition base_run_args (path : Path) : list pyval :=
  [PStr "run"; PStr "--volume";
   PStr (str_of_path path ++ ":/vg-task")%string;
   PStr "--label"; PStr "vantage"; PStr "--label"; PStr "vantage-task"].

Definition env_flags (env : dict) : list pyval :=
  flat_map (fun e => [PStr "--env"; PStr e]) (keys env).

(** Lines 47 to 64 of [task_cmd]: the interactive flag, the tag and the
    run arguments so far.  [image.pop("tag")] changes the cached object
    before the tag is substituted. *)
Definition image_args (path : Path) (image : pyval) (env : env_ref)
           (args : list string) : M (bool * pyval * list pyval) :=
  match image with
  | PDict img =>
      let tty_in :=
        truthy (match dict_get "tty" img with
                | Some v => v
                | None => PBool false
                end) in
      match dict_pop "tag" img with
      | None => raise (KeyError "tag")
      | Some (tag0, img') =>
          write_image path img' ;;;
          e <- read_env env ;;
          tag <- lift (insert_env_vals tag0 e args) ;;
          opts <- lift (flatten_items img' e args) ;;
          ret (tty_in, tag, base_run_args path ++ opts)
      end
  | _ => ret (false, image, base_run_args path ++ [PStr "--rm"])
  end.

(** Lines 32 to 81 of [task_cmd] up to the call itself: the command, its
    arguments and the keywords it is called with. *)
Definition build_invocation (path : Path) (args : list string)
           (env : env_ref) : M invocation :=
  meta <- read_meta path ;;
  image <- py_get meta "image" ;;
  call <-
    (if truthy image then
       r <- image_args path image env args ;;
       let '(tty_in, tag, run_args) := r in
       e <- read_env env ;;
       let run_args := run_args ++ env_flags e ++ [tag; PStr "/vg-task"] in
       ret ("docker", run_args ++ map PStr args, tty_in)
     else
       e <- read_env env ;;
       write_env env
         (dict_set "PATH"
            (PStr (match environ_PATH w with
                   | Some p => p
                   | None => EmptyString
                   end)) e) ;;;
       ret (str_of_path path, map PStr args, false)) ;;
  let '(cmd, cmd_args, tty_in) := call in
  e <- read_env env ;;
  cwd <- getitem e "VG_APP_DIR" ;;
  ret (mkInvocation cmd cmd_args tty_in e cwd).

(** The [try] block of [task_cmd], lines 31 to 87: only
    [sh.ErrorReturnCode], raised for a non-zero exit code, is caught and
    turned into [sys.exit]. *)
Definition run_task (path : Path) (args : list string) (env : env_ref)
  : M unit :=
  inv <- build_invocation path args env ;;
  code <- run_command inv ;;
  if Z.eqb code 0 then ret tt else sys_exit code.

(** Iterating [meta.get("requires", [])]. *)
Definition py_iter (v : pyval) : M (list pyval) :=
  match v with
  | PList l => ret l
  | PDict d => ret (map PStr (keys d))
  | PStr s => ret (map (fun c => PStr (String c EmptyString))
                       (list_ascii_of_string s))
  | _ => raise TypeError
  end.

Definition requires_of (meta : pyval) : M pyval :=
  match meta with
  | PDict m =>
      ret (match dict_get "requires" m with
           | Some v => v
           | None => PList []
           end)
  | _ => raise AttributeError
  end.

(** The flag of lines 19 to 23: the first argument of [get_flag] is a
    [bool(...)], never [None]. *)
Definition run_required_flag (e : dict) (yml : pyval) : pyval :=
  get_flag (PBool (truthy (get_or_none "VG_RUN_REQUIRED" e)))
           yml (PBool false).

(** [t.invoke(ctx)] calls the callback of [t] with the parameters of [ctx],
    so a prerequisite receives the arguments of the task that required it;
    [None] has no [invoke], and click refuses to invoke a group that
    way. *)
Definition invoke (callback : Path -> list string -> M unit)
           (t : option task) (args : list string) : M unit :=
  match t with
  | None => raise AttributeError
  | Some (Command _ p _) => callback p args
  | Some (Group _ _ _) => raise UsageError
  end.

(** Lines 15 to 30 of [task_cmd]: metadata, environment, flag and
    prerequisites; [callback] is [task_cmd] itself. *)
Definition prepare (callback : Path -> list string -> M unit)
           (path : Path) (args : list string) : M env_ref :=
  load_meta path ;;;
  env <- update_env path CtxObj ;;
  e <- read_env env ;;
  meta <- read_meta path ;;
  yml <- py_get meta "run-required" ;;
  (if truthy (run_required_flag e yml) then
     requires <- requires_of meta ;;
     names <- py_iter requires ;;
     for_each
       (fun required =>
          t <- get_task env required ;;
          invoke callback t args)
       names
   else ret tt) ;;;
  ret env.

(** [task_cmd]; [fuel] bounds the depth of prerequisite recursion. *)
Fixpoint task_cmd (fuel : nat) (path : Path) (args : list string)
  : M unit :=
  match fuel with
  | O => fun st => (OutOfFuel, st)
  | S fuel' =>
      env <- prepare (task_cmd fuel') path args ;;
      run_task path args env
  end.

End Task.

(** ** Reference definitions the properties are stated against *)

(** An environment whose values are all strings. *)
Definition str_env (e : list (string * string)) : dict :=
  map (fun kv => (fst kv, PStr (snd kv))) e.

(** One [str.replace] after the other, in list order. *)
Definition replace_each (subs : list (string * string)) (s : string)
  : string :=
  fold_left (fun acc sub => replace (fst sub) (snd sub) acc) subs s.

(** Sequential expansion: every [$K] in environment order, then every
    [$i] in argument order, each on the string the previous step left. *)
Definition expand (s : string) (e : list (string * string))
           (args : list string) : string :=
  replace_each
    (map (fun iv => (("$" ++ str_of_nat (fst iv))%string, snd iv))
         (enumerate args))
    (replace_each (map (fun kv => (("$" ++ fst kv)%string, snd kv)) e) s).

(** The option values of a structured image spec in the data model: a
    string, a boolean flag or a list of strings. *)
Inductive option_value : Type :=
| OptString (s : string)
| OptFlag (b : bool)
| OptList (l : list string).

Definition embed_option (v : option_value) : pyval :=
  match v with
  | OptString s => PStr s
  | OptFlag b => PBool b
  | OptList l => PList (map PStr l)
  end.

Definition embed_spec (sp : list (string * option_value)) : dict :=
  map (fun kv => (fst kv, embed_option (snd kv))) sp.

(** What one key of an image spec contributes to the run arguments. *)
Definition emitted (e : list (string * string)) (args : list string)
           (kv : string * option_value) : list pyval :=
  let flag := PStr ("--" ++ fst kv)%string in
  match snd kv with
  | OptList l => flat_map (fun x => [flag; PStr (expand x e args)]) l
  | OptFlag b => if b then [flag] else []
  | OptString s => [flag; PStr (expand s e args)]
  end.

(** [O] over [E] over [D], key by key. *)
Definition layered (O E D : dict) (k : string) : option pyval :=
  match dict_get k O with
  | Some v => Some v
  | None =>
      match dict_get k E with
      | Some v => Some v
      | None => dict_get k D
      end
  end.

(** The overrides step of [update_env] on the context object. *)
Definition after_overrides (O : option dict) (E : dict) : dict :=
  match O with
  | Some o => dict_update E o
  | None => E
  end.

(** How a run ends on the exit code of its own process. *)
Definition exit_outcome (code : Z) : outcome unit :=
  if Z.eqb code 0 then Returns tt else Exits code.

(** A metadata field that is a mapping or absent. *)
Definition field_of (x : option dict) : pyval :=
  match x with
  | Some d => PDict d
  | None => PNone
  end.

Definition or_empty (x : option dict) : dict :=
  match x with
  | Some d => d
  | None => []
  end.

(** No entry named [name] or [name.*] is an executable file or a
    directory. *)
Definition unmatched (entries : list (string * node)) (name : string)
  : bool :=
  forallb
    (fun e =>
       if String.eqb (fst e) name || starts_with (name ++ ".")%string (fst e)
       then match snd e with
            | File executable _ => negb executable
            | Dir _ => false
            end
       else true)
    entries.

(** A search root that is no directory, or one where the name is
    [unmatched]. *)
Definition root_without (w : world) (name : string) (dir_ : Path) : Prop :=
  match lookup_node w dir_ with
  | Some (Dir entries) => unmatched entries name = true
  | _ => True
  end.

(** The exit code an outcome carries, if it is an exit. *)
Definition exit_of {A} (r : outcome A) : option Z :=
  match r with
  | Exits code => Some code
  | _ => None
  end.

(** The exit codes of the processes [l], spawned in that order after
    [before]. *)
Fixpoint exit_codes (w : world) (before l : list invocation) : list Z :=
  match l with
  | [] => []
  | inv :: l' => spawn w before inv :: exit_codes w (before ++ [inv]) l'
  end.

Definition all_zero (codes : list Z) : Prop :=
  Forall (fun z => z = 0%Z) codes.

(** What the exit codes of the processes spawned require of the way a
    computation ended: an exit carries the non-zero code of the last
    process, all earlier ones having succeeded; any other ending means
    that every process succeeded. *)
Definition accounted (codes : list Z) (x : option Z) : Prop :=
  match x with
  | Some code =>
      code <> 0%Z
      /\ exists zeros, codes = zeros ++ [code] /\ all_zero zeros
  | None => all_zero codes
  end.

Definition faithful (w : world) {A} (m : M A) : Prop :=
  forall st r st',
    m st = (r, st') ->
    exists l,
      trace st' = trace st ++ l
      /\ accounted (exit_codes w (trace st) l) (exit_of r).

(** Spawns nothing and does not exit. *)
Definition quiet {A} (m : M A) : Prop :=
  forall st r st', m st = (r, st') -> trace st' = trace st /\ exit_of r = None.

(** ** A sample application

    [/app/tasks] holds plain tasks, a task that runs in a container, a
    folder with a like-named leaf next to a non-executable [foo.txt], and a
    folder that only holds a like-named folder. *)

Module Sample.

Definition plain_text : string := "#!/bin/sh" ++ nl ++ "echo done" ++ nl.

(** [build] requires [setup] and asks for its prerequisites to run. *)
Definition build_text : string :=
  "#!/bin/sh" ++ nl ++ "# ---" ++ nl ++ "# run-required: true" ++ nl
  ++ "# requires: [setup]" ++ nl ++ "# ---" ++ nl ++ "echo build" ++ nl.

Definition deploy_text : string :=
  "#!/bin/sh" ++ nl ++ "# ---" ++ nl ++ "# image: alpine" ++ nl
  ++ "# ---" ++ nl ++ "echo deploy" ++ nl.

Definition tasks : node :=
  Dir [("build", File true build_text);
       ("setup", File true plain_text);
       ("fail", File true plain_text);
       ("deploy", File true deploy_text);
       ("foo.txt", File false "notes");
       ("foo", Dir [("foo", File true plain_text)]);
       ("bar", Dir [("bar", Dir [])])].

Definition tree : node := Dir [("app", Dir [("tasks", tasks)])].

Definition build : Path := ["app"; "tasks"; "build"].
Definition deploy : Path := ["app"; "tasks"; "deploy"].
Definition fail : Path := ["app"; "tasks"; "fail"].

Definition build_meta : pyval :=
  PDict [("run-required", PBool true); ("requires", PList [PStr "setup"])].

(** A loader that knows the two documents of the sample. *)
Definition yaml (text : string) : option pyval :=
  if String.eqb text (nl ++ "image: alpine" ++ nl)
  then Some (PDict [("image", PStr "alpine")])
  else if String.eqb text (nl ++ "run-required: true" ++ nl
                           ++ "requires: [setup]" ++ nl)
  then Some build_meta
  else None.

(** Only [/app/tasks/fail] exits with a failure, code 3. *)
Definition exit_code (before : list invocation) (inv : invocation) : Z :=
  if String.eqb (inv_cmd inv) "/app/tasks/fail" then 3%Z else 0%Z.

Definition app : world :=
  mkWorld tree yaml exit_code (Some "/usr/bin") (fun _ => None).

Definition environment : dict :=
  [("VG_APP_DIR", PStr "/app"); ("VG_VERBOSE", PStr EmptyString)].

Definition fresh : state := mkState environment [] [].

Definition image_spec : list (string * option_value) :=
  [("tag", OptString "img:$TAG"); ("rm", OptFlag true);
   ("network", OptList ["a"; "$0"]); ("init", OptFlag false)].

Definition spec_cached : state :=
  mkState environment
          [(deploy, PDict [("image", PDict (embed_spec image_spec))])] [].

Definition bare_cached (image : string) : state :=
  mkState environment [(deploy, PDict [("image", PStr image)])] [].

Definition layered_meta : pyval :=
  PDict [("overrides", PDict [("A", PStr "o")]);
         ("defaults", PDict [("A", PStr "d"); ("B", PStr "d")])].

Definition layered_cached (e : dict) : state :=
  mkState e [(build, layered_meta)] [].

End Sample.

(** ** Further reference definitions and sample trees *)

(** An environment reference that denotes a dictionary in the store. *)
Definition env_bound (env : env_ref) (st : state) : Prop :=
  match env with
  | CtxObj => True
  | MetaDefaults p =>
      exists m d, meta_at p st = PDict m
                  /\ dict_get "defaults" m = Some (PDict d)
  end.

(** [os.environ.get] of [PATH], with the empty string as default *)
Definition ambient_path (w : world) : pyval :=
  PStr (match environ_PATH w with
        | Some p => p
        | None => EmptyString
        end).

(** Never runs out of fuel: no recursion is involved. *)
Definition settles {A} (m : M A) : Prop :=
  forall st r st', m st = (r, st') -> r <> OutOfFuel.

(** Every object the first cache holds is held unchanged by the second. *)
Definition cache_extends (c c' : list (Path * pyval)) : Prop :=
  forall p m, cache_find p c = Some m -> cache_find p c' = Some m.

(** Touches nothing but the cache, and that only by adding to it. *)
Definition loads_only {A} (m : M A) : Prop :=
  forall st r st',
    m st = (r, st') ->
    ctx_obj st' = ctx_obj st
    /\ trace st' = trace st
    /\ cache_extends (meta_cache st) (meta_cache st').

(** Every needle of a substitution list starts with a dollar sign. *)
Definition dollar_needles (subs : list (string * pyval)) : Prop :=
  Forall (fun sub => exists k, fst sub = ("$" ++ k)%string) subs.

Definition command_path (t : task) : Path :=
  match t with
  | Command _ p _ => p
  | Group _ p _ => p
  end.

(** What [as_group] registers for the directory at [path] with the given
    entries: under the key [k] a command of that name, made from an entry
    that is a directory or an executable file, named by the stem of the
    entry, and without commands of its own when it is a group. *)
Definition registered (path : Path) (entries : list (string * node))
           (kv : string * task) : Prop :=
  fst kv = task_name (snd kv)
  /\ (exists c child,
         In (c, child) entries
         /\ node_is_dir (Some child) || node_is_executable (Some child) = true
         /\ command_path (snd kv) = join path c
         /\ fst kv = stem (join path c))
  /\ match snd kv with
     | Group _ _ commands => commands = []
     | Command _ _ _ => True
     end.

(** An application with a plugins directory beside its tasks. *)
Module Plugins.
Definition tree : node :=
  Dir [("app",
        Dir [("tasks", Sample.tasks);
             (".vg-plugins",
              Dir [("lint", File true Sample.plain_text);
                   ("build", File true Sample.plain_text)])])].
Definition app : world :=
  mkWorld tree Sample.yaml Sample.exit_code (Some "/usr/bin")
          (fun _ => None).
End Plugins.

(** A task that requires itself, and one that requires a task that does
    not exist. *)
Module Loop.
Definition again : Path := ["app"; "tasks"; "again"].
Definition tree : node :=
  Dir [("app", Dir [("tasks", Dir [("again", File true Sample.plain_text)])])].
Definition app : world :=
  mkWorld tree Sample.yaml Sample.exit_code (Some "/usr/bin")
          (fun _ => None).
Definition again_meta : dict := [("requires", PList [PStr "again"])].
Definition start : state :=
  mkState (Sample.environment ++ [("VG_RUN_REQUIRED", PStr "1")])
          [(again, PDict again_meta)] [].
Definition missing : state :=
  mkState (Sample.environment ++ [("VG_RUN_REQUIRED", PStr "1")])
          [(again, PDict [("requires", PList [PStr "gone"])])] [].
End Loop.

(** A task file whose metadata block is opened and never closed. *)
Module Unclosed.
Definition text : string :=
  ("#!/bin/sh" ++ nl ++ "# ---" ++ nl ++ "# image: alpine" ++ nl
   ++ "echo hi" ++ nl)%string.
Definition task : Path := ["app"; "tasks"; "open"].
Definition tree : node :=
  Dir [("app", Dir [("tasks", Dir [("open", File true text)])])].
Definition app : world :=
  mkWorld tree Sample.yaml Sample.exit_code (Some "/usr/bin")
          (fun _ => None).
End Unclosed.

(** A folder [foo] that holds an executable [foo]. *)
Module Nested.
Definition inner : list (string * node) :=
  [("foo", File true Sample.plain_text); ("bar", File true Sample.plain_text)].
Definition tree : node :=
  Dir [("app", Dir [("tasks", Dir [("foo", Dir inner)])])].
Definition app : world :=
  mkWorld tree Sample.yaml Sample.exit_code (Some "/usr/bin")
          (fun _ => None).
End Nested.

(** An executable that is no text: the first bytes of a compiled program,
    which do not decode, and no line of which holds three dashes. *)
Module Binary.
Definition bytes : string :=
  String (ascii_of_nat 127)
         ("ELF" ++ String (ascii_of_nat 2)
                     (String (ascii_of_nat 1)
                        (String (ascii_of_nat 1)
                           (String (ascii_of_nat 0)
                              (String (ascii_of_nat 200)
                                 (String (ascii_of_nat 10)
                                    (String (ascii_of_nat 255)
                                       EmptyString))))))).
Definition tool : Path := ["app"; "tasks"; "tool"].
Definition tree : node :=
  Dir [("app", Dir [("tasks", Dir [("tool", File true bytes)])])].
Definition undecodable (p : Path) : option exn :=
  if path_eqb p tool then Some UnicodeDecodeError else None.
Definition app : world :=
  mkWorld tree Sample.yaml Sample.exit_code (Some "/usr/bin") undecodable.
End Binary.

(** ** Facts about the Python runtime model *)

Section DictFacts.
Variable V : Type.
Implicit Types d o : list (string * V).

Lemma dict_get_set_same k v d : dict_get k (dict_set k v d) = Some v.
Proof.
  induction d as [|[k' v'] d IH]; simpl.
  - now rewrite String.eqb_refl.
  - destruct (String.eqb k k') eqn:E; simpl; rewrite E; auto.
Qed.

Lemma dict_get_set_other k k' v d :
  k <> k' -> dict_get k (dict_set k' v d) = dict_get k d.
Proof.
  intros Hne. induction d as [|[k0 v0] d IH]; simpl.
  - apply String.eqb_neq in Hne. now rewrite Hne.
  - destruct (String.eqb k' k0) eqn:E; simpl.
    + apply String.eqb_eq in E. subst k0.
      apply String.eqb_neq in Hne. now rewrite Hne.
    + now rewrite IH.
Qed.

Lemma dict_get_none_notin k d :
  ~ In k (keys d) -> dict_get k d = None.
Proof.
  induction d as [|[k' v'] d IH]; simpl; intros H; auto.
  destruct (String.eqb k k') eqn:E.
  - apply String.eqb_eq in E. subst. tauto.
  - apply IH. tauto.
Qed.

Lemma dict_get_notin_none k d : dict_get k d = None -> ~ In k (keys d).
Proof.
  induction d as [|[k' v'] d IH]; simpl; intros H; auto.
  destruct (String.eqb k k') eqn:E; try discriminate.
  apply String.eqb_neq in E. intros [Heq|Hin]; [congruence|].
  now apply IH.
Qed.

Lemma keys_set k v d :
  keys (dict_set k v d) = if has_key k d then keys d else keys d ++ [k].
Proof.
  unfold has_key.
  induction d as [|[k' v'] d IH]; simpl; auto.
  destruct (String.eqb k k') eqn:E; simpl; auto.
  rewrite IH. now destruct (dict_get k d).
Qed.

Lemma wf_dict_set k v d : wf_dict d -> wf_dict (dict_set k v d).
Proof.
  unfold wf_dict. intros H. rewrite keys_set. unfold has_key.
  destruct (dict_get k d) eqn:E; auto.
  apply dict_get_notin_none in E.
  apply NoDup_app; auto.
  - constructor; [simpl; tauto | constructor].
  - intros x Hx [Heq|[]]. congruence.
Qed.

Lemma wf_dict_update d o : wf_dict d -> wf_dict (dict_update d o).
Proof.
  unfold dict_update. revert d.
  induction o as [|[k v] o IH]; simpl; intros d H; auto.
  apply IH. now apply wf_dict_set.
Qed.

(** [d.update(o)] looked up: [o] first, then [d]. *)
Lemma dict_get_update k d o :
  wf_dict o ->
  dict_get k (dict_update d o)
  = match dict_get k o with
    | Some v => Some v
    | None => dict_get k d
    end.
Proof.
  unfold dict_update, wf_dict. revert d.
  induction o as [|[k' v'] o IH]; simpl; intros d H; auto.
  inversion H as [|? ? Hnotin Hnd]; subst.
  rewrite IH by assumption.
  destruct (String.eqb k k') eqn:E.
  - apply String.eqb_eq in E. subst k'.
    rewrite (dict_get_none_notin _ _ Hnotin).
    apply dict_get_set_same.
  - destruct (dict_get k o); auto.
    apply dict_get_set_other. now apply String.eqb_neq.
Qed.

Lemma dict_get_remove_same k d :
  wf_dict d -> dict_get k (dict_remove k d) = None.
Proof.
  unfold wf_dict.
  induction d as [|[k' v'] d IH]; simpl; intros H; auto.
  inversion H as [|? ? Hnotin Hnd]; subst.
  destruct (String.eqb k k') eqn:E; simpl.
  - apply String.eqb_eq in E. subst. now apply dict_get_none_notin.
  - rewrite E. auto.
Qed.
End DictFacts.

Lemma contains_false_replace old new s :
  contains old s = false -> replace old new s = s.
Proof.
  destruct old as [|a old]; [destruct s; discriminate|].
  unfold replace. generalize (String a old). clear a old. intros old.
  induction s as [|c s IH]; intros H; [reflexivity|].
  cbn [contains] in H. apply orb_false_iff in H as [H1 H2].
  cbn [replace_from]. rewrite H1. now rewrite IH.
Qed.

(** ** Placeholder substitution *)

Lemma substitute_str needle r s :
  substitute needle (PStr r) (PStr s) = inr (PStr (replace needle r s)).
Proof.
  unfold substitute. destruct (contains needle s) eqn:E; auto.
  now rewrite contains_false_replace.
Qed.

Lemma substitute_all_str subs s :
  substitute_all (map (fun sub => (fst sub, PStr (snd sub))) subs) (PStr s)
  = inr (PStr (replace_each subs s)).
Proof.
  unfold replace_each. revert s.
  induction subs as [|[needle r] subs IH]; intros s; auto.
  cbn [map fst snd substitute_all fold_left].
  rewrite substitute_str. apply IH.
Qed.

Lemma insert_env_vals_str s e args :
  insert_env_vals (PStr s) (str_env e) args = inr (PStr (expand s e args)).
Proof.
  unfold insert_env_vals, env_needles, arg_needles, str_env, expand.
  rewrite map_map. simpl.
  rewrite <- (map_map (fun kv => (("$" ++ fst kv)%string, snd kv))
                      (fun sub => (fst sub, PStr (snd sub)))).
  rewrite substitute_all_str.
  rewrite <- (map_map (fun iv => (("$" ++ str_of_nat (fst iv))%string, snd iv))
                      (fun sub => (fst sub, PStr (snd sub)))).
  apply substitute_all_str.
Qed.

(** C2, as stated, fails: with arguments [["x"]] and environment
    [{FOO: "$0"}] the input ["$0 and $FOO"] does not come out as
    ["x and $0"]; the [$0] that FOO's value brought in is replaced by the
    argument loop that runs afterwards. *)
Lemma insert_env_vals_rescans_inserted_value :
  insert_env_vals (PStr "$0 and $FOO") [("FOO", PStr "$0")] ["x"]
  = inr (PStr "x and x")
  /\ insert_env_vals (PStr "$0 and $FOO") [("FOO", PStr "$0")] ["x"]
     <> inr (PStr "x and $0").
Proof.
  split; [reflexivity | discriminate].
Qed.

(** C2, amended: on a string and a string-valued environment,
    [insert_env_vals] is the sequence of literal replacements [expand]: one
    [str.replace] of [$K] per environment key in iteration order, then one
    of [$i] per argument index in order, each applied to the string the
    previous replacement produced, so text inserted by an earlier step is
    scanned by the later ones; ["$0 and $FOO"] with arguments [["x"]] and
    environment [{FOO: "$0"}] yields ["x and x"]. *)
Theorem insert_env_vals_sequential :
  (forall s e args,
      insert_env_vals (PStr s) (str_env e) args
      = inr (PStr (expand s e args)))
  /\ (forall s k v a,
         insert_env_vals (PStr s) (str_env [(k, v)]) [a]
         = inr (PStr (replace "$0" a (replace ("$" ++ k) v s))))
  /\ insert_env_vals (PStr "$0 and $FOO") (str_env [("FOO", "$0")]) ["x"]
     = inr (PStr "x and x").
Proof.
  split; [|split].
  - apply insert_env_vals_str.
  - intros s k v a. now rewrite insert_env_vals_str.
  - reflexivity.
Qed.

(** ** Image options *)

Lemma flatten_list_str k l e args :
  flatten_list k (map PStr l) (str_env e) args
  = inr (flat_map (fun x => [PStr ("--" ++ k)%string;
                             PStr (expand x e args)]) l).
Proof.
  induction l as [|x l IH]; simpl; auto.
  now rewrite insert_env_vals_str, IH.
Qed.

Lemma flatten_item_emitted k v e args :
  flatten_item k (embed_option v) (str_env e) args
  = inr (emitted e args (k, v)).
Proof.
  destruct v as [s|b|l]; simpl.
  - now rewrite insert_env_vals_str.
  - reflexivity.
  - apply flatten_list_str.
Qed.

Lemma flatten_items_emitted sp e args :
  flatten_items (embed_spec sp) (str_env e) args
  = inr (flat_map (emitted e args) sp).
Proof.
  induction sp as [|[k v] sp IH]; simpl; auto.
  now rewrite flatten_item_emitted, IH.
Qed.

Lemma embed_spec_get k sp :
  dict_get k (embed_spec sp) = option_map embed_option (dict_get k sp).
Proof.
  induction sp as [|[k' v'] sp IH]; simpl; auto.
  now destruct (String.eqb k k').
Qed.

Lemma embed_spec_remove k sp :
  dict_remove k (embed_spec sp) = embed_spec (dict_remove k sp).
Proof.
  induction sp as [|[k' v'] sp IH]; simpl; auto.
  destruct (String.eqb k k'); simpl; auto. now rewrite IH.
Qed.

(** ** The store *)

Lemma path_eqb_eq p q : path_eqb p q = true <-> p = q.
Proof.
  revert q. induction p as [|a p IH]; destruct q as [|b q]; simpl;
    try (split; [discriminate | congruence]); try tauto.
  rewrite andb_true_iff, String.eqb_eq, IH.
  split; [intros [-> ->]; reflexivity | intros H; inversion H; auto].
Qed.

Lemma path_eqb_refl p : path_eqb p p = true.
Proof. now apply path_eqb_eq. Qed.

Lemma cache_find_modify p q f c :
  cache_find p (cache_modify q f c)
  = if path_eqb p q then option_map f (cache_find p c) else cache_find p c.
Proof.
  induction c as [|[q0 m] c IH]; simpl.
  - now destruct (path_eqb p q).
  - destruct (path_eqb q q0) eqn:E; simpl.
    + apply path_eqb_eq in E. subst q0.
      destruct (path_eqb p q); reflexivity.
    + rewrite IH. destruct (path_eqb p q) eqn:E1; auto.
      apply path_eqb_eq in E1. subst q. now rewrite E.
  Qed.

Lemma defaults_of_set_image v meta :
  defaults_of (set_field "image" v meta) = defaults_of meta.
Proof.
  destruct meta; simpl; auto.
  now rewrite dict_get_set_other by discriminate.
Qed.

Lemma env_at_assign_image env path img st :
  env_at env (assign_image path img st) = env_at env st.
Proof.
  destruct env as [|p]; simpl; auto.
  unfold meta_at. simpl. rewrite cache_find_modify.
  destruct (path_eqb p path); auto.
  destruct (cache_find p (meta_cache st)); simpl; auto.
  apply defaults_of_set_image.
Qed.

(** C8: for a structured image spec of the data model (each option a
    string, a flag or a list of strings, the tag a string) and a
    string-valued environment, the run arguments are the base arguments
    followed, for each key left after the tag is removed and in mapping
    order, by one [--key value] pair per element of a list value, a bare
    [--key] exactly for a true flag, and one [--key value] pair for a
    string, values expanded; so [{rm: true}] gives [--rm], [{rm: false}]
    gives nothing and [{network: [a, b]}] gives [--network a --network b]. *)
Theorem image_options_flattened :
  (forall path sp t env e args st,
      dict_get "tag" sp = Some (OptString t) ->
      env_at env st = str_env e ->
      exists tty_in,
        fst (image_args path (PDict (embed_spec sp)) env args st)
        = Returns (tty_in, PStr (expand t e args),
                   base_run_args path
                   ++ flat_map (emitted e args) (dict_remove "tag" sp)))
  /\ (forall e args,
         flatten_items [("rm", PBool true)] (str_env e) args
         = inr [PStr "--rm"]
         /\ flatten_items [("rm", PBool false)] (str_env e) args = inr []
         /\ flatten_items [("network", PList [PStr "a"; PStr "b"])]
                          (str_env e) args
            = inr [PStr "--network"; PStr (expand "a" e args);
                   PStr "--network"; PStr (expand "b" e args)]).
Proof.
  split.
  - intros path sp t env e args st Htag Henv.
    eexists. unfold image_args, dict_pop.
    rewrite embed_spec_get, Htag. cbn [option_map embed_option].
    unfold bind, write_image, read_env.
    rewrite env_at_assign_image, Henv.
    rewrite insert_env_vals_str, embed_spec_remove, flatten_items_emitted.
    reflexivity.
  - intros e args. repeat split.
    change [("network", PList [PStr "a"; PStr "b"])]
      with (embed_spec [("network", OptList ["a"; "b"])]).
    now rewrite flatten_items_emitted.
Qed.

(** ** Metadata parsing *)

Lemma find_all_false {A} (f : A -> bool) l :
  (forall x, In x l -> f x = false) -> find f l = None.
Proof.
  induction l as [|a l IH]; simpl; intros H; auto.
  rewrite (H a) by auto. apply IH. auto.
Qed.




(** A block between two [# ---] lines is uncommented and handed to the
    loader. *)
Example load_meta_with_block :
  fst (load_meta Sample.app Sample.deploy Sample.fresh)
  = Returns (PDict [("image", PStr "alpine")]).
Proof. reflexivity. Qed.

(** ** Environment composition *)

Lemma meta_at_dict path st m :
  meta_at path st = PDict m ->
  cache_find path (meta_cache st) = Some (PDict m).
Proof.
  unfold meta_at. destruct (cache_find path (meta_cache st)); congruence.
Qed.

Lemma meta_at_assign_defaults path d st m :
  meta_at path st = PDict m ->
  meta_at path (assign_env (MetaDefaults path) d st)
  = PDict (dict_set "defaults" (PDict d) m).
Proof.
  intros H. apply meta_at_dict in H. unfold meta_at. simpl.
  now rewrite cache_find_modify, path_eqb_refl, H.
Qed.

Lemma has_key_get {V} k (d : list (string * V)) :
  has_key k d = true -> exists v, dict_get k d = Some v.
Proof.
  unfold has_key. destruct (dict_get k d); [eauto | discriminate].
Qed.

Lemma after_overrides_get O E k :
  wf_dict (or_empty O) ->
  dict_get k (after_overrides O E)
  = match dict_get k (or_empty O) with
    | Some v => Some v
    | None => dict_get k E
    end.
Proof.
  destruct O as [o|]; simpl; intros H; auto.
  now apply dict_get_update.
Qed.

Lemma after_overrides_wf O E : wf_dict E -> wf_dict (after_overrides O E).
Proof.
  destruct O; simpl; auto. apply wf_dict_update.
Qed.

Lemma update_env_run path m O D st :
  meta_at path st = PDict m ->
  get_or_none "overrides" m = field_of O ->
  get_or_none "defaults" m = field_of D ->
  has_key "VG_VERBOSE" (ctx_obj st) = true ->
  wf_dict (or_empty O) ->
  let E1 := after_overrides O (ctx_obj st) in
  let st1 := mkState E1 (meta_cache st) (trace st) in
  update_env path CtxObj st
  = match D with
    | None => (Returns CtxObj, st1)
    | Some d =>
        (Returns (MetaDefaults path),
         assign_env (MetaDefaults path) (dict_update d E1) st1)
    end.
Proof.
  intros Hm HO HD Hv HwO E1 st1.
  assert (Hv1 : exists v, dict_get "VG_VERBOSE" E1 = Some v).
  { subst E1. rewrite after_overrides_get by assumption.
    destruct (dict_get "VG_VERBOSE" (or_empty O)); eauto.
    now apply has_key_get. }
  destruct Hv1 as [v1 Hv1].
  apply has_key_get in Hv as [v Hv].
  assert (Hm1 : meta_at path st1 = PDict m) by exact Hm.
  unfold update_env, bind, read_meta. rewrite Hm. cbn [py_get ret].
  rewrite HO. subst st1 E1.
  destruct O as [o|]; cbn [field_of is_none after_overrides] in *.
  - cbn [read_env env_at]. unfold getitem at 1. rewrite Hv. cbn [ret].
    assert (Hitems : (if truthy v then py_items (PDict o) else ret tt) st
                     = (Returns tt, st)) by (destruct (truthy v); reflexivity).
    rewrite Hitems. cbn [update_from fst snd lift ret write_env assign_env].
    rewrite Hm1. cbn [py_get ret]. rewrite HD.
    destruct D as [d|]; cbn [field_of is_none]; auto.
    cbn [ctx_obj]. unfold getitem. rewrite Hv1. cbn [ret].
    destruct (truthy v1); reflexivity.
  - destruct st as [E c t]. cbn [ctx_obj meta_cache trace] in *.
    cbn [ret]. rewrite Hm1. cbn [py_get ret].
    rewrite HD. destruct D as [d|]; cbn [field_of is_none]; auto.
    cbn [read_env env_at ctx_obj]. unfold getitem. rewrite Hv1. cbn [ret].
    destruct (truthy v1); reflexivity.
Qed.

(** C3, as stated, fails for an environment without the key
    [VG_VERBOSE]: the overrides step first reads [env["VG_VERBOSE"]]. *)
Lemma update_env_needs_verbose_key :
  fst (update_env Sample.build CtxObj (Sample.layered_cached []))
  = Raises (KeyError "VG_VERBOSE").
Proof. reflexivity. Qed.

(** C3, amended: for every environment [E] that has the key [VG_VERBOSE],
    overrides [O] and defaults [D] (each a mapping or absent),
    [update_env] first merges [O] onto [E] in the context object, so [O]
    replaces same-named entries, then overlays that onto [D]; key by key
    the result is [O]'s value, else [E]'s, else [D]'s. *)
Theorem update_env_layers path m O D st :
  meta_at path st = PDict m ->
  get_or_none "overrides" m = field_of O ->
  get_or_none "defaults" m = field_of D ->
  has_key "VG_VERBOSE" (ctx_obj st) = true ->
  wf_dict (ctx_obj st) ->
  wf_dict (or_empty O) ->
  exists env st',
    update_env path CtxObj st = (Returns env, st')
    /\ (forall k, dict_get k (ctx_obj st')
                  = layered (or_empty O) (ctx_obj st) [] k)
    /\ (forall k, dict_get k (env_at env st')
                  = layered (or_empty O) (ctx_obj st) (or_empty D) k).
Proof.
  intros Hm HO HD Hv HwE HwO.
  rewrite (@update_env_run path m O D st Hm HO HD Hv HwO).
  set (E1 := after_overrides O (ctx_obj st)).
  assert (HE1 : forall k, dict_get k E1
                          = layered (or_empty O) (ctx_obj st) [] k).
  { intros k. subst E1. rewrite after_overrides_get by assumption.
    unfold layered. destruct (dict_get k (or_empty O)); auto.
    now destruct (dict_get k (ctx_obj st)). }
  destruct D as [d|]; do 2 eexists; (split; [reflexivity|]); split;
    try exact HE1; intros k.
  cbn [env_at]. rewrite meta_at_assign_defaults with (m := m) by exact Hm.
  cbn [defaults_of]. rewrite dict_get_set_same.
  rewrite dict_get_update by (apply after_overrides_wf; assumption).
  rewrite HE1. unfold layered. cbn [or_empty].
  destruct (dict_get k (or_empty O)); auto.
  now destruct (dict_get k (ctx_obj st)).
Qed.

Ltac prove_wf :=
  unfold wf_dict; simpl;
  repeat (constructor; [simpl; intuition discriminate|]); constructor.

Lemma update_env_layers_witness :
  has_key "VG_VERBOSE" Sample.environment = true
  /\ exists env st',
      update_env Sample.build CtxObj (Sample.layered_cached Sample.environment)
      = (Returns env, st')
      /\ (forall k, dict_get k (ctx_obj st')
                    = layered [("A", PStr "o")] Sample.environment [] k)
      /\ (forall k, dict_get k (env_at env st')
                    = layered [("A", PStr "o")] Sample.environment
                              [("A", PStr "d"); ("B", PStr "d")] k).
Proof.
  split; [reflexivity|].
  apply (@update_env_layers
           Sample.build
           [("overrides", PDict [("A", PStr "o")]);
            ("defaults", PDict [("A", PStr "d"); ("B", PStr "d")])]
           (Some [("A", PStr "o")])
           (Some [("A", PStr "d"); ("B", PStr "d")])
           (Sample.layered_cached Sample.environment));
    try reflexivity; prove_wf.
Defined.

(** On the sample: the override beats the default for [A], the default
    fills in [B], and the inherited keys stay. *)
Example update_env_sample :
  exists st',
    update_env Sample.build CtxObj (Sample.layered_cached Sample.environment)
    = (Returns (MetaDefaults Sample.build), st')
    /\ env_at (MetaDefaults Sample.build) st'
       = [("A", PStr "o"); ("B", PStr "d"); ("VG_APP_DIR", PStr "/app");
          ("VG_VERBOSE", PStr EmptyString)].
Proof. eexists. split; reflexivity. Qed.

Lemma image_options_flattened_witness :
  dict_get "tag" Sample.image_spec = Some (OptString "img:$TAG")
  /\ exists tty_in,
      fst (image_args Sample.deploy (PDict (embed_spec Sample.image_spec))
                      CtxObj ["x"]
                      (mkState (str_env [("TAG", "7")]) [] []))
      = Returns (tty_in, PStr (expand "img:$TAG" [("TAG", "7")] ["x"]),
                 base_run_args Sample.deploy
                 ++ flat_map (emitted [("TAG", "7")] ["x"])
                             (dict_remove "tag" Sample.image_spec)).
Proof.
  split; [reflexivity|].
  apply (proj1 image_options_flattened); reflexivity.
Defined.

Example image_options_sample :
  flat_map (emitted [("TAG", "7")] ["x"])
           (dict_remove "tag" Sample.image_spec)
  = [PStr "--rm"; PStr "--network"; PStr "a"; PStr "--network"; PStr "x"]
  /\ expand "img:$TAG" [("TAG", "7")] ["x"] = "img:7".
Proof. split; reflexivity. Qed.

(** ** The run-required flag *)

(** [get_flag] itself has the three-way precedence. *)
Lemma get_flag_precedence env yml default :
  get_flag env yml default
  = match env, yml with
    | PNone, PNone => default
    | PNone, _ => yml
    | _, _ => env
    end.
Proof. destruct env, yml; reflexivity. Qed.

(** [task_cmd] passes it a [bool(...)], which is never [None]: the
    metadata value and the default are never reached. *)
Lemma run_required_flag_is_env e yml :
  run_required_flag e yml = PBool (truthy (get_or_none "VG_RUN_REQUIRED" e)).
Proof. reflexivity. Qed.

Lemma run_required_flag_without_override e yml :
  dict_get "VG_RUN_REQUIRED" e = None ->
  run_required_flag e yml = PBool false.
Proof.
  intros H. unfold run_required_flag, get_or_none. now rewrite H.
Qed.

(** C1 at its failing input: the environment has no [VG_RUN_REQUIRED], the
    metadata block of [build] says [run-required: true] and
    [requires: [setup]], yet the flag is false and the only process spawned
    is [build] itself. *)
Theorem task_cmd_ignores_run_required_metadata :
  dict_get "VG_RUN_REQUIRED" Sample.environment = None
  /\ fst (load_meta Sample.app Sample.build Sample.fresh)
     = Returns (PDict [("run-required", PBool true);
                       ("requires", PList [PStr "setup"])])
  /\ run_required_flag Sample.environment (PBool true) = PBool false
  /\ exists st',
      task_cmd Sample.app 3 Sample.build [] Sample.fresh = (Returns tt, st')
      /\ map inv_cmd (trace st') = ["/app/tasks/build"].
Proof.
  repeat split. eexists. split; reflexivity.
Qed.

(** With the override set the prerequisite does run first. *)
Example task_cmd_runs_required_with_override :
  exists st',
    task_cmd Sample.app 3 Sample.build []
             (mkState (Sample.environment ++ [("VG_RUN_REQUIRED", PStr "1")])
                      [] [])
    = (Returns tt, st')
    /\ map inv_cmd (trace st') = ["/app/tasks/setup"; "/app/tasks/build"].
Proof. eexists. split; reflexivity. Qed.

(** ** The locator *)

Lemma dict_get_In {V} k (d : list (string * V)) v :
  dict_get k d = Some v -> In (k, v) d.
Proof.
  induction d as [|[k' v'] d IH]; simpl; intros H; try discriminate.
  destruct (String.eqb k k') eqn:E.
  - apply String.eqb_eq in E. left. congruence.
  - right. auto.
Qed.

Section Unmatched.
Variable w : world.
Variables (entries : list (string * node)) (name : string).
Hypothesis Hun : unmatched entries name = true.

Lemma unmatched_entry c child :
  In (c, child) entries ->
  String.eqb c name || starts_with (name ++ ".")%string c = true ->
  exists content, child = File false content.
Proof.
  intros Hin Hc. unfold unmatched in Hun.
  rewrite forallb_forall in Hun. specialize (Hun _ Hin).
  simpl in Hun. rewrite Hc in Hun.
  destruct child as [[|] content|]; try discriminate. eauto.
Qed.

Lemma unmatched_direct :
  node_is_executable (dict_get name entries) = false.
Proof.
  destruct (dict_get name entries) as [child|] eqn:E; auto.
  apply dict_get_In in E.
  destruct (unmatched_entry _ _ E) as [content ->]; auto.
  now rewrite String.eqb_refl.
Qed.

Lemma unmatched_glob :
  find entry_is_executable (glob entries name) = None.
Proof.
  apply find_all_false. intros [c child] Hin.
  apply filter_In in Hin as [Hin Hc]. simpl in Hc.
  destruct (unmatched_entry _ _ Hin) as [content ->]; auto.
  rewrite Hc. apply orb_true_r.
Qed.

Lemma unmatched_target :
  let target := match rev (glob entries name) with
                | (c, _) :: _ => c
                | [] => name
                end in
  String.eqb target name || starts_with (name ++ ".")%string target = true.
Proof.
  destruct (rev (glob entries name)) as [|[c child] l] eqn:E; simpl.
  - now rewrite String.eqb_refl.
  - assert (Hin : In (c, child) (glob entries name)).
    { apply in_rev. rewrite E. now left. }
    apply filter_In in Hin as [_ Hc]. simpl in Hc.
    rewrite Hc. apply orb_true_r.
Qed.

(** Nothing is found, nothing is loaded. *)
Lemma get_task_from_node_unmatched dir_ st :
  get_task_from_node w (Dir entries) dir_ name st = (Returns None, st).
Proof.
  cbn [get_task_from_node].
  rewrite unmatched_direct, unmatched_glob.
  pose proof unmatched_target as Ht. cbv zeta in Ht.
  set (target := match rev (glob entries name) with
                 | (c, _) :: _ => c
                 | [] => name
                 end) in *.
  assert (Hsub : forall e, In e entries -> In e entries) by auto.
  revert Hsub. generalize entries at 1 3. intros l.
  induction l as [|[c child] l IH]; intros Hsub; [reflexivity|].
  destruct (String.eqb target c) eqn:E.
  - apply String.eqb_eq in E. subst c.
    destruct (unmatched_entry target child) as [content ->]; auto.
    apply Hsub. now left.
  - apply IH. intros e He. apply Hsub. now right.
Qed.
End Unmatched.

Lemma search_roots_without w name roots st :
  Forall (root_without w name) roots ->
  search_roots w roots (PStr name) st = (Returns None, st).
Proof.
  induction 1 as [|dir_ roots Hroot _ IH]; [reflexivity|].
  cbn [search_roots]. unfold is_dir, get_task_from_dir, root_without in *.
  destruct (lookup_node w dir_) as [[x content|entries]|];
    cbn [node_is_dir]; auto.
  unfold bind. rewrite get_task_from_node_unmatched by assumption.
  exact IH.
Qed.




(** A direct executable wins. *)
Lemma get_task_from_node_direct w entries dir_ name :
  node_is_executable (dict_get name entries) = true ->
  get_task_from_node w (Dir entries) dir_ name
  = (cmd <- as_command w (join dir_ name) ;; ret (Some cmd)).
Proof.
  intros H. cbn [get_task_from_node]. now rewrite H.
Qed.

(** With no direct executable and nothing matching [name.*], a folder
    called [name] is searched for [name] again and is the group
    otherwise. *)
Lemma get_task_from_node_folder w entries dir_ name inner :
  node_is_executable (dict_get name entries) = false ->
  glob entries name = [] ->
  dict_get name entries = Some (Dir inner) ->
  get_task_from_node w (Dir entries) dir_ name
  = (nested <- get_task_from_node w (Dir inner) (join dir_ name) name ;;
     match nested with
     | Some t => ret (Some t)
     | None =>
         g <- as_group w (Dir inner) (join dir_ name) ;;
         ret (Some g)
     end).
Proof.
  intros Hdirect Hglob Hdir. cbn [get_task_from_node].
  rewrite Hdirect, Hglob. cbn [find rev].
  clear Hdirect Hglob. revert Hdir. generalize entries. intros l.
  induction l as [|[c child] l IH]; cbn [dict_get]; intros H;
    [discriminate|].
  destruct (String.eqb name c) eqn:E.
  - apply String.eqb_eq in E. subst c.
    inversion H; subst child. reflexivity.
  - apply IH, H.
Qed.

(** So, absent any [name.*] entry, a like-named executable inside the
    folder is preferred to the folder. *)
Lemma get_task_from_node_nested_leaf w entries dir_ name inner st :
  node_is_executable (dict_get name entries) = false ->
  glob entries name = [] ->
  dict_get name entries = Some (Dir inner) ->
  node_is_executable (dict_get name inner) = true ->
  get_task_from_node w (Dir entries) dir_ name st
  = (cmd <- as_command w (join (join dir_ name) name) ;; ret (Some cmd)) st.
Proof.
  intros Hdirect Hglob Hdir Hleaf.
  rewrite (get_task_from_node_folder w entries dir_ name Hdirect Hglob Hdir).
  rewrite (get_task_from_node_direct w inner (join dir_ name) name Hleaf).
  unfold bind.
  destruct (as_command w (join (join dir_ name) name) st)
    as [[cmd|e|code|] st']; reflexivity.
Qed.

(** C7 at its failing input: [/app/tasks] has no executable [foo] and no
    executable [foo.*], it has the folder [foo] with an executable [foo]
    inside, and next to it the non-executable [foo.txt].  The glob loop
    leaves [task_path] at [foo.txt], the folder is never looked at, and
    nothing is found. *)
Theorem nested_leaf_lost_after_glob_match :
  is_executable Sample.app ["app"; "tasks"; "foo"] = false
  /\ find entry_is_executable
          (glob (match Sample.tasks with Dir es => es | _ => [] end) "foo")
     = None
  /\ is_dir Sample.app ["app"; "tasks"; "foo"] = true
  /\ is_executable Sample.app ["app"; "tasks"; "foo"; "foo"] = true
  /\ get_task_from_dir Sample.app ["app"; "tasks"] "foo" Sample.fresh
     = (Returns None, Sample.fresh).
Proof. repeat split. Qed.

(** Without [foo.txt] the same lookup does return the inner leaf. *)
Example nested_leaf_found_without_glob_match :
  fst (get_task_from_node Sample.app
         (Dir [("foo", Dir [("foo", File true Sample.plain_text)])])
         ["app"; "tasks"] "foo" Sample.fresh)
  = Returns (Some (Command "foo" ["app"; "tasks"; "foo"; "foo"] PNone)).
Proof. reflexivity. Qed.

(** A folder that only holds a like-named folder resolves to the inner
    one. *)
Example nested_group_found :
  fst (get_task_from_dir Sample.app ["app"; "tasks"] "bar" Sample.fresh)
  = Returns (Some (Group "bar" ["app"; "tasks"; "bar"; "bar"] [])).
Proof. reflexivity. Qed.

(** ** The invocation *)

Lemma task_cmd_step w fuel path args st env st1 :
  prepare w (task_cmd w fuel) path args st = (Returns env, st1) ->
  task_cmd w (S fuel) path args st = run_task w path args env st1.
Proof.
  intros H. cbn [task_cmd]. unfold bind. now rewrite H.
Qed.

(** C5, as stated, fails twice over: an empty string is a bare-string
    image, yet the task is then run as a plain process, with no container
    invocation at all; and for a non-empty tag the volume binds the path of
    the task file, here [/app/tasks/deploy], not the directory it lies in,
    [/app/tasks]. *)
Lemma bare_image_counterexample :
  (exists st',
      task_cmd Sample.app 1 Sample.deploy ["x"]
               (Sample.bare_cached EmptyString)
      = (Returns tt, st')
      /\ map inv_cmd (trace st') = ["/app/tasks/deploy"]
      /\ map inv_args (trace st') = [[PStr "x"]])
  /\ (exists st',
         task_cmd Sample.app 1 Sample.deploy ["x"]
                  (Sample.bare_cached "alpine")
         = (Returns tt, st')
         /\ map (fun inv => nth 2 (inv_args inv) PNone) (trace st')
            = [PStr "/app/tasks/deploy:/vg-task"]
         /\ map (fun inv => nth 2 (inv_args inv) PNone) (trace st')
            <> [PStr (str_of_path (parent Sample.deploy) ++ ":/vg-task")]).
Proof.
  split; eexists; (split; [reflexivity|]); split;
    try reflexivity; discriminate.
Qed.

(** C5, amended: for a task whose image is a non-empty bare string, once
    metadata, environment and prerequisites are through, exactly one
    process is spawned: [docker] with the arguments [run], [--volume
    <path of the task file>:/vg-task], [--label vantage], [--label
    vantage-task], [--rm], one [--env K] per key of the effective
    environment in order, the tag unchanged, [/vg-task] and the user
    arguments, and nothing else. *)
Theorem bare_image_invocation w fuel path args st env st1 m tag cwd :
  prepare w (task_cmd w fuel) path args st = (Returns env, st1) ->
  meta_at path st1 = PDict m ->
  get_or_none "image" m = PStr tag ->
  tag <> EmptyString ->
  dict_get "VG_APP_DIR" (env_at env st1) = Some cwd ->
  let inv :=
    mkInvocation
      "docker"
      ([PStr "run";
        PStr "--volume"; PStr (str_of_path path ++ ":/vg-task")%string;
        PStr "--label"; PStr "vantage";
        PStr "--label"; PStr "vantage-task";
        PStr "--rm"]
       ++ flat_map (fun k => [PStr "--env"; PStr k]) (keys (env_at env st1))
       ++ [PStr tag; PStr "/vg-task"]
       ++ map PStr args)
      false (env_at env st1) cwd in
  task_cmd w (S fuel) path args st
  = (exit_outcome (spawn w (trace st1) inv),
     mkState (ctx_obj st1) (meta_cache st1) (trace st1 ++ [inv])).
Proof.
  intros Hprep Hm Himg Htag Hcwd inv.
  rewrite (@task_cmd_step _ _ _ _ _ _ _ Hprep).
  unfold run_task, build_invocation, bind, read_meta.
  rewrite Hm. cbn [py_get ret].
  rewrite Himg.
  assert (Ht : truthy (PStr tag) = true).
  { cbn. apply negb_true_iff, String.eqb_neq, Htag. }
  rewrite Ht. cbn [image_args ret read_env].
  unfold getitem. rewrite Hcwd. cbn [ret run_command].
  unfold env_flags, base_run_args.
  assert (Hargs :
    (([PStr "run"; PStr "--volume";
       PStr (str_of_path path ++ ":/vg-task")%string;
       PStr "--label"; PStr "vantage"; PStr "--label"; PStr "vantage-task"]
        ++ [PStr "--rm"])
       ++ flat_map (fun e => [PStr "--env"; PStr e]) (keys (env_at env st1))
       ++ [PStr tag; PStr "/vg-task"]) ++ map PStr args
    = inv_args inv).
  { subst inv. cbn [inv_args]. rewrite <- !app_assoc. reflexivity. }
  rewrite Hargs.
  change (mkInvocation "docker" (inv_args inv) false (env_at env st1) cwd)
    with inv.
  unfold exit_outcome.
  destruct (Z.eqb (spawn w (trace st1) inv) 0); reflexivity.
Qed.

Lemma bare_image_invocation_witness :
  prepare Sample.app (task_cmd Sample.app 0) Sample.deploy ["x"]
          (Sample.bare_cached "alpine")
  = (Returns CtxObj, Sample.bare_cached "alpine")
  /\ exists st',
      task_cmd Sample.app 1 Sample.deploy ["x"] (Sample.bare_cached "alpine")
      = (Returns tt, st')
      /\ map inv_args (trace st')
         = [[PStr "run"; PStr "--volume"; PStr "/app/tasks/deploy:/vg-task";
             PStr "--label"; PStr "vantage";
             PStr "--label"; PStr "vantage-task"; PStr "--rm";
             PStr "--env"; PStr "VG_APP_DIR"; PStr "--env"; PStr "VG_VERBOSE";
             PStr "alpine"; PStr "/vg-task"; PStr "x"]].
Proof.
  split; [reflexivity|].
  eexists.
  rewrite (@bare_image_invocation
             Sample.app 0 Sample.deploy ["x"] (Sample.bare_cached "alpine")
             CtxObj (Sample.bare_cached "alpine")
             [("image", PStr "alpine")] "alpine" (PStr "/app")
             eq_refl eq_refl eq_refl
             ltac:(discriminate) eq_refl).
  split; reflexivity.
Defined.

(** ** The cached metadata object *)

Lemma run_task_cache w path args env st :
  meta_cache (snd (run_task w path args env st))
  = meta_cache (snd (build_invocation w path args env st)).
Proof.
  unfold run_task, bind.
  destruct (build_invocation w path args env st) as [[inv|e|code|] st1];
    auto.
  cbn. destruct (Z.eqb _ 0); reflexivity.
Qed.

(** A structured image loses its tag in the store, whatever happens
    next. *)
Lemma build_invocation_pops_tag w path args env st m img tag :
  meta_at path st = PDict m ->
  dict_get "image" m = Some (PDict img) ->
  dict_get "tag" img = Some tag ->
  meta_cache (snd (build_invocation w path args env st))
  = cache_modify path (set_field "image" (PDict (dict_remove "tag" img)))
                 (meta_cache st).
Proof.
  intros Hm Himg Htag.
  unfold build_invocation, bind, read_meta. rewrite Hm. cbn [py_get ret].
  unfold get_or_none. rewrite Himg.
  assert (Ht : truthy (PDict img) = true)
    by (destruct img; [discriminate Htag | reflexivity]).
  rewrite Ht. unfold image_args, dict_pop. rewrite Htag.
  unfold bind, write_image, read_env.
  destruct (insert_env_vals tag _ args) as [e|tag']; [reflexivity|].
  cbn [lift ret].
  destruct (flatten_items _ _ args) as [e|opts]; [reflexivity|].
  cbn [lift ret]. unfold getitem.
  destruct (dict_get "VG_APP_DIR" _); reflexivity.
Qed.

(** Inverting a bind that returned: its first computation returned too,
    which is recorded under the given name. *)
Tactic Notation "step_as" hyp(H) ident(Hn) :=
  match type of H with
  | bind ?m _ ?st = (Returns _, _) =>
      unfold bind at 1 in H;
      destruct (m st) as [[?a|?e|?code|] ?s] eqn:Hn; try discriminate H
  end.

Ltac step H := let Hs := fresh "Hs" in step_as H Hs.

(** Inverting one primitive that returned. *)
Ltac prim :=
  match goal with
  | H : ret _ _ = (Returns _, _) |- _ => inversion H; subst; clear H
  | H : raise _ _ = (Returns _, _) |- _ => discriminate H
  | H : read_meta _ _ = (Returns _, _) |- _ => inversion H; subst; clear H
  | H : read_env _ _ = (Returns _, _) |- _ => inversion H; subst; clear H
  | H : write_env _ _ _ = (Returns _, _) |- _ =>
      inversion H; subst; clear H
  | H : lift ?x _ = (Returns _, _) |- _ =>
      destruct x; [discriminate H | cbn [lift] in H]
  | H : getitem ?d ?k _ = (Returns _, _) |- _ =>
      unfold getitem in H; destruct (dict_get k d) eqn:?; [|discriminate H]
  | H : py_items ?v _ = (Returns _, _) |- _ =>
      destruct v; try discriminate H; cbn [py_items] in H
  | H : (if ?b then _ else _) _ = (Returns _, _) |- _ => destruct b eqn:?
  | H : bind _ _ _ = (Returns _, _) |- _ => step H
  end.

Lemma overrides_step_cache overrides st u st1 :
  (if is_none overrides then ret tt
   else
     e <- read_env CtxObj ;;
     verbose <- getitem e "VG_VERBOSE" ;;
     (if truthy verbose then py_items overrides else ret tt) ;;;
     write_env CtxObj (fst (update_from e overrides)) ;;;
     lift (snd (update_from e overrides))) st = (Returns u, st1) ->
  meta_cache st1 = meta_cache st.
Proof.
  intros H. repeat prim; reflexivity.
Qed.

Lemma update_env_merges_into_defaults path m D st env st' :
  meta_at path st = PDict m ->
  get_or_none "defaults" m = PDict D ->
  update_env path CtxObj st = (Returns env, st') ->
  env = MetaDefaults path
  /\ meta_at path st'
     = PDict (dict_set "defaults" (PDict (dict_update D (ctx_obj st'))) m).
Proof.
  intros Hm HD H. unfold update_env in H.
  step H. prim. rewrite Hm in H.
  step_as H Hget. cbn [py_get] in Hget. prim.
  step_as H Hov. apply overrides_step_cache in Hov.
  match goal with
  | Hc : meta_cache ?s = meta_cache _ |- _ =>
      assert (Hm1 : meta_at path s = PDict m)
        by (unfold meta_at in *; now rewrite Hc)
  end.
  step H. prim. rewrite Hm1 in H.
  step_as H Hget. cbn [py_get] in Hget. prim.
  rewrite HD in H. cbn [is_none] in H.
  repeat prim.
  all: split; auto; exact (@meta_at_assign_defaults path _ _ m Hm1).
Qed.

(** C10: running a task changes the metadata object the cache of
    [load_meta] holds for it.  For a structured image with a tag, once
    metadata, environment and prerequisites are through, [task_cmd] leaves
    the cached image mapping without its [tag] key, whatever the outcome of
    the run, so the metadata differs from what it was and a later
    [load_meta] of the same path returns the changed object; and
    [update_env] stores the composed environment in the cached [defaults]
    mapping. *)
Theorem task_cmd_changes_cached_metadata :
  (forall w fuel path args st env st1 m img tag,
      prepare w (task_cmd w fuel) path args st = (Returns env, st1) ->
      meta_at path st1 = PDict m ->
      dict_get "image" m = Some (PDict img) ->
      dict_get "tag" img = Some tag ->
      wf_dict img ->
      exists r st2,
        task_cmd w (S fuel) path args st = (r, st2)
        /\ meta_at path st2
           = PDict (dict_set "image" (PDict (dict_remove "tag" img)) m)
        /\ dict_get "tag" (dict_remove "tag" img) = None
        /\ meta_at path st2 <> meta_at path st1
        /\ load_meta w path st2 = (Returns (meta_at path st2), st2))
  /\ (forall path m D st env st',
         meta_at path st = PDict m ->
         get_or_none "defaults" m = PDict D ->
         update_env path CtxObj st = (Returns env, st') ->
         env = MetaDefaults path
         /\ meta_at path st'
            = PDict (dict_set "defaults"
                              (PDict (dict_update D (ctx_obj st'))) m)).
Proof.
  split; [|exact update_env_merges_into_defaults].
  intros w fuel path args st env st1 m img tag Hprep Hm Himg Htag Hwf.
  rewrite (@task_cmd_step _ _ _ _ _ _ _ Hprep).
  destruct (run_task w path args env st1) as [r st2] eqn:Hrun.
  exists r, st2.
  assert (Hcache : meta_cache st2
                   = cache_modify path
                       (set_field "image" (PDict (dict_remove "tag" img)))
                       (meta_cache st1)).
  { pose proof (run_task_cache w path args env st1) as H.
    rewrite Hrun in H. cbn [snd] in H. rewrite H.
    now apply build_invocation_pops_tag with (m := m) (tag := tag). }
  assert (Hfind : cache_find path (meta_cache st2)
                  = Some (PDict (dict_set "image"
                                   (PDict (dict_remove "tag" img)) m))).
  { rewrite Hcache, cache_find_modify, path_eqb_refl.
    now rewrite (meta_at_dict _ _ Hm). }
  assert (Hm2 : meta_at path st2
                = PDict (dict_set "image" (PDict (dict_remove "tag" img)) m))
    by (unfold meta_at; now rewrite Hfind).
  assert (Hgone : dict_get "tag" (dict_remove "tag" img) = None)
    by now apply dict_get_remove_same.
  repeat split; auto.
  - rewrite Hm2, Hm. intros Heq. inversion Heq as [Hd].
    assert (Hi : dict_get "image"
                   (dict_set "image" (PDict (dict_remove "tag" img)) m)
                 = Some (PDict img)) by (rewrite Hd; exact Himg).
    rewrite dict_get_set_same in Hi. inversion Hi as [Hr].
    rewrite Hr in Hgone. congruence.
  - unfold load_meta. rewrite Hfind. now rewrite Hm2.
Qed.

Lemma task_cmd_changes_cached_metadata_witness :
  meta_at Sample.deploy Sample.spec_cached
  = PDict [("image", PDict (embed_spec Sample.image_spec))]
  /\ exists r st2,
      task_cmd Sample.app 1 Sample.deploy ["x"] Sample.spec_cached
      = (r, st2)
      /\ meta_at Sample.deploy st2
         = PDict [("image",
                   PDict [("rm", PBool true);
                          ("network", PList [PStr "a"; PStr "$0"]);
                          ("init", PBool false)])]
      /\ meta_at Sample.deploy st2 <> meta_at Sample.deploy Sample.spec_cached.
Proof.
  split; [reflexivity|].
  destruct (proj1 task_cmd_changes_cached_metadata
              Sample.app 0%nat Sample.deploy ["x"] Sample.spec_cached
              CtxObj Sample.spec_cached
              [("image", PDict (embed_spec Sample.image_spec))]
              (embed_spec Sample.image_spec) (PStr "img:$TAG")
              eq_refl eq_refl eq_refl eq_refl ltac:(prove_wf))
    as (r & st2 & Hrun & Hmeta & _ & Hne & _).
  exists r, st2. repeat split; assumption.
Defined.

(** On the sample, a second run of the same task finds no tag to pop. *)
Example second_run_finds_no_tag :
  exists st2 st3,
    task_cmd Sample.app 1 Sample.deploy ["x"] Sample.spec_cached
    = (Returns tt, st2)
    /\ task_cmd Sample.app 1 Sample.deploy ["x"] st2
       = (Raises (KeyError "tag"), st3).
Proof. do 2 eexists. split; reflexivity. Qed.

(** ** Exit codes *)

Lemma quiet_bind {A B} (m : M A) (k : A -> M B) :
  quiet m -> (forall a, quiet (k a)) -> quiet (bind m k).
Proof.
  intros Hm Hk st r st' H. unfold bind in H.
  destruct (m st) as [[a|e|code|] st1] eqn:E;
    destruct (Hm _ _ _ E) as [Ht Hx]; try discriminate.
  - destruct (Hk a _ _ _ H) as [Ht' Hx']. split; congruence.
  - inversion H; subst. auto.
  - inversion H; subst. auto.
Qed.

(** A primitive of the monad is quiet by what it computes. *)
Ltac quiet_base :=
  let H := fresh "H" in
  intros ? ? ? H;
  cbv [ret raise lift py_get getitem py_items py_iter requires_of
       read_meta read_env write_env write_image assign_env assign_image
       with_cache load_meta] in H;
  repeat match type of H with
         | context [match ?x with _ => _ end] => destruct x
         end;
  inversion H; subst; split; reflexivity.

(** Splits a computation along its binds and branches; [bind_lemma] is
    the rule for a bind. *)
Ltac quiet_step bind_lemma :=
  match goal with
  | |- quiet (bind _ _) => apply bind_lemma; [|intros]
  | |- quiet (if ?b then _ else _) => destruct b
  | |- quiet (match ?x with _ => _ end) => destruct x
  | |- quiet (let '(_, _) := ?x in _) => destruct x
  | |- quiet _ => solve [auto]
  | |- quiet _ => solve [quiet_base]
  end.

Section ExitInvariant.
Variable w : world.

Lemma quiet_update_env path env : quiet (update_env path env).
Proof. unfold update_env. repeat quiet_step @quiet_bind. Qed.

Lemma quiet_image_args path image env args :
  quiet (image_args path image env args).
Proof. unfold image_args, dict_pop. repeat quiet_step @quiet_bind. Qed.

Lemma quiet_build_invocation path args env :
  quiet (build_invocation w path args env).
Proof.
  pose proof quiet_image_args.
  unfold build_invocation. repeat quiet_step @quiet_bind.
Qed.

Lemma quiet_as_command path : quiet (as_command w path).
Proof. unfold as_command. repeat quiet_step @quiet_bind. Qed.

Lemma quiet_group_children path entries :
  forall commands, quiet (group_children w path entries commands).
Proof.
  pose proof quiet_as_command.
  induction entries as [|[c child] entries IH]; intros commands;
    cbn [group_children]; repeat quiet_step @quiet_bind.
Qed.

Lemma quiet_as_group n path : quiet (as_group w n path).
Proof.
  pose proof quiet_group_children.
  unfold as_group. repeat quiet_step @quiet_bind.
Qed.

(** By recursion on the tree, and inside it along the entries the scan
    walks. *)
Lemma quiet_get_task_from_node :
  forall n dir_ name, quiet (get_task_from_node w n dir_ name).
Proof.
  pose proof quiet_as_command as Hc. pose proof quiet_as_group as Hg.
  fix IH 1. intros [x content|entries] dir_ name;
    cbn [get_task_from_node]; [quiet_base|].
  destruct (node_is_executable (dict_get name entries));
    [repeat quiet_step @quiet_bind|].
  destruct (find entry_is_executable (glob entries name)) as [[c child]|];
    [repeat quiet_step @quiet_bind|].
  generalize (match rev (glob entries name) with
              | (c, _) :: _ => c
              | [] => name
              end).
  intros target.
  induction entries as [|[c child] l IHl]; [quiet_base|].
  destruct (String.eqb target c); [|exact IHl].
  pose proof (IH child (join dir_ c) name) as Hchild.
  destruct child as [x content|inner]; [quiet_base|].
  apply quiet_bind; [exact Hchild|].
  clear IH IHl Hchild. intros [t|]; repeat quiet_step @quiet_bind.
Qed.

Lemma quiet_get_task_from_dir dir_ name :
  quiet (get_task_from_dir w dir_ name).
Proof.
  pose proof quiet_get_task_from_node.
  unfold get_task_from_dir. repeat quiet_step @quiet_bind.
Qed.

Lemma quiet_search_roots roots name : quiet (search_roots w roots name).
Proof.
  pose proof quiet_get_task_from_dir.
  induction roots as [|dir_ roots IH]; cbn [search_roots];
    repeat quiet_step @quiet_bind.
Qed.

Lemma quiet_get_task env name : quiet (get_task w env name).
Proof.
  pose proof quiet_search_roots.
  unfold get_task. repeat quiet_step @quiet_bind.
Qed.

Lemma exit_codes_app before l1 l2 :
  exit_codes w before (l1 ++ l2)
  = exit_codes w before l1 ++ exit_codes w (before ++ l1) l2.
Proof.
  revert before. induction l1 as [|inv l1 IH]; intros before; cbn.
  - now rewrite app_nil_r.
  - now rewrite IH, <- app_assoc.
Qed.

Lemma accounted_app codes1 codes2 x :
  accounted codes1 None -> accounted codes2 x ->
  accounted (codes1 ++ codes2) x.
Proof.
  intros H1 H2. destruct x as [code|]; cbn in *.
  - destruct H2 as (Hne & zeros & -> & Hz).
    split; auto. exists (codes1 ++ zeros).
    split; [now rewrite app_assoc | now apply Forall_app].
  - now apply Forall_app.
Qed.

Lemma faithful_quiet {A} (m : M A) : quiet m -> faithful w m.
Proof.
  intros Hq st r st' H. destruct (Hq _ _ _ H) as [Ht Hx].
  exists []. rewrite app_nil_r, Hx. split; auto. constructor.
Qed.

Lemma faithful_bind {A B} (m : M A) (k : A -> M B) :
  faithful w m -> (forall a, faithful w (k a)) -> faithful w (bind m k).
Proof.
  intros Hm Hk st r st' H. unfold bind in H.
  destruct (m st) as [[a|e|code|] st1] eqn:E;
    destruct (Hm _ _ _ E) as (l1 & Ht1 & Ha1).
  - destruct (Hk a _ _ _ H) as (l2 & Ht2 & Ha2).
    exists (l1 ++ l2). split.
    + now rewrite Ht2, Ht1, app_assoc.
    + rewrite exit_codes_app. apply accounted_app; auto.
      now rewrite <- Ht1.
  - inversion H; subst. eauto.
  - inversion H; subst. eauto.
  - inversion H; subst. eauto.
Qed.

(** The call and the handler around it. *)
Lemma faithful_spawn inv :
  faithful w (code <- run_command w inv ;;
              if Z.eqb code 0 then ret tt else sys_exit code).
Proof.
  intros st r st' H. unfold bind, run_command in H.
  exists [inv].
  destruct (Z.eqb (spawn w (trace st) inv) 0) eqn:E;
    inversion H; subst; (split; [reflexivity|]); cbn.
  - apply Z.eqb_eq in E. repeat constructor. exact E.
  - split; [now apply Z.eqb_neq|].
    exists []. split; [reflexivity | constructor].
Qed.

Lemma faithful_run_task path args env :
  faithful w (run_task w path args env).
Proof.
  unfold run_task. apply faithful_bind.
  - apply faithful_quiet, quiet_build_invocation.
  - intros inv. apply faithful_spawn.
Qed.

Lemma faithful_for_each {A} (body : A -> M unit) l :
  (forall a, faithful w (body a)) -> faithful w (for_each body l).
Proof.
  intros Hb. induction l as [|a l IH]; cbn [for_each].
  - apply faithful_quiet. quiet_base.
  - apply faithful_bind; auto.
Qed.

Lemma faithful_invoke callback t args :
  (forall p a, faithful w (callback p a)) ->
  faithful w (invoke callback t args).
Proof.
  intros Hc. destruct t as [[name p help|name p commands]|]; cbn [invoke];
    auto; apply faithful_quiet; quiet_base.
Qed.

Lemma faithful_prepare callback path args :
  (forall p a, faithful w (callback p a)) ->
  faithful w (prepare w callback path args).
Proof.
  intros Hc.
  pose proof quiet_update_env as Hu. pose proof quiet_get_task as Hg.
  unfold prepare.
  repeat (apply faithful_bind;
          [try (apply faithful_quiet;
                solve [repeat quiet_step @quiet_bind]) | intros]).
  - destruct (truthy _); [|apply faithful_quiet; quiet_base].
    repeat (apply faithful_bind;
            [try (apply faithful_quiet;
                  solve [repeat quiet_step @quiet_bind]) | intros]).
    apply faithful_for_each. intros required.
    apply faithful_bind; [apply faithful_quiet, Hg|].
    intros t. now apply faithful_invoke.
  - apply faithful_quiet. quiet_base.
Qed.

(** Whatever the depth of prerequisites, a run exits exactly when the
    last process it spawned failed, and then with that code. *)
Lemma faithful_task_cmd fuel :
  forall path args, faithful w (task_cmd w fuel path args).
Proof.
  induction fuel as [|fuel IH]; intros path args; cbn [task_cmd].
  - apply faithful_quiet. intros st r st' H. inversion H. auto.
  - apply faithful_bind.
    + now apply faithful_prepare.
    + intros env. apply faithful_run_task.
Qed.
End ExitInvariant.

Lemma all_zero_in codes z : all_zero codes -> In z codes -> z = 0%Z.
Proof.
  unfold all_zero. rewrite Forall_forall. auto.
Qed.

(** C6: in a run of [task_cmd], prerequisites included, a spawned process
    that exits with a non-zero code makes the run end by [sys.exit] with
    exactly that code: it is the last process spawned (nothing is retried,
    nothing else is started) and every process before it succeeded; the
    run exits in no other case and with no other code.  And once the
    invocation of the task itself is built, the outcome is decided by its
    exit code alone: zero returns normally, anything else exits with that
    number. *)
Theorem exit_code_propagates :
  (forall w fuel path args st r st',
      task_cmd w fuel path args st = (r, st') ->
      exists l,
        trace st' = trace st ++ l
        /\ (forall code,
               In code (exit_codes w (trace st) l) ->
               code <> 0%Z ->
               r = Exits code)
        /\ (forall code,
               r = Exits code ->
               code <> 0%Z
               /\ exists zeros,
                   exit_codes w (trace st) l = zeros ++ [code]
                   /\ all_zero zeros))
  /\ (forall w fuel path args st env st1 inv st2,
         prepare w (task_cmd w fuel) path args st = (Returns env, st1) ->
         build_invocation w path args env st1 = (Returns inv, st2) ->
         task_cmd w (S fuel) path args st
         = (exit_outcome (spawn w (trace st2) inv),
            mkState (ctx_obj st2) (meta_cache st2) (trace st2 ++ [inv]))).
Proof.
  split.
  - intros w fuel path args st r st' H.
    destruct (faithful_task_cmd w fuel path args _ H) as (l & Ht & Ha).
    exists l. split; [exact Ht|]. split.
    + intros code Hin Hne.
      destruct r as [a|e|code'|]; cbn in Ha;
        try (exfalso; apply Hne; now apply (@all_zero_in _ _ Ha)).
      destruct Ha as (_ & zeros & Hcodes & Hz).
      rewrite Hcodes in Hin. apply in_app_or in Hin. destruct Hin as [Hin|Hin].
      * exfalso. apply Hne. now apply (@all_zero_in _ _ Hz).
      * cbn in Hin. destruct Hin as [<-|[]]. reflexivity.
    + intros code ->. exact Ha.
  - intros w fuel path args st env st1 inv st2 Hprep Hbuild.
    rewrite (@task_cmd_step _ _ _ _ _ _ _ Hprep).
    unfold run_task, bind. rewrite Hbuild. cbn [run_command].
    unfold exit_outcome.
    destruct (Z.eqb (spawn w (trace st2) inv) 0); reflexivity.
Qed.

Lemma exit_code_propagates_witness :
  task_cmd Sample.app 1 Sample.fail [] Sample.fresh
  = (Exits 3%Z,
     snd (task_cmd Sample.app 1 Sample.fail [] Sample.fresh))
  /\ exists l,
      trace (snd (task_cmd Sample.app 1 Sample.fail [] Sample.fresh))
      = trace Sample.fresh ++ l
      /\ (forall code,
             In code (exit_codes Sample.app (trace Sample.fresh) l) ->
             code <> 0%Z ->
             @Exits unit 3%Z = Exits code)
      /\ (forall code,
             @Exits unit 3%Z = Exits code ->
             code <> 0%Z
             /\ exists zeros,
                 exit_codes Sample.app (trace Sample.fresh) l
                 = zeros ++ [code]
                 /\ all_zero zeros).
Proof.
  split; [reflexivity|].
  exact (proj1 exit_code_propagates Sample.app 1%nat Sample.fail []
               Sample.fresh (Exits 3%Z)
               (snd (task_cmd Sample.app 1 Sample.fail [] Sample.fresh))
               eq_refl).
Defined.

(** A failing prerequisite ends the run with its code and the task that
    required it is never started. *)
Example failing_prerequisite_exits :
  exists st',
    task_cmd Sample.app 2 Sample.build []
             (mkState (Sample.environment ++ [("VG_RUN_REQUIRED", PStr "1")])
                      [(Sample.build,
                        PDict [("requires", PList [PStr "fail"])])]
                      [])
    = (Exits 3%Z, st')
    /\ map inv_cmd (trace st') = ["/app/tasks/fail"].
Proof. eexists. split; reflexivity. Qed.

(** ** Further properties of the code *)

(** *** Metadata loading *)

Lemma cache_find_added p c q m :
  cache_find p (c ++ [(q, m)])
  = match cache_find p c with
    | Some x => Some x
    | None => if path_eqb p q then Some m else None
    end.
Proof.
  induction c as [|[q0 m0] c IH]; simpl; auto.
  now destruct (path_eqb p q0).
Qed.

(** X1: [load_meta] under [lru_cache].  The call changes neither the
    context object nor the list of spawned processes, nor, when it does
    not fill the cache beyond its size, the object cached for any other
    path.  When it returns, the object it returns is the one the cache now
    holds for the path, and the file is not read again: a second call in
    the resulting state returns that same object and changes nothing,
    whatever has become of the file system by then; when it raises,
    nothing was stored. *)
Theorem load_meta_memoizes w path st r st' :
  load_meta w path st = (r, st') ->
  ctx_obj st' = ctx_obj st
  /\ trace st' = trace st
  /\ (List.length (meta_cache st') <= maxsize ->
      forall q, q <> path ->
                cache_find q (meta_cache st') = cache_find q (meta_cache st))
  /\ match r with
     | Returns meta =>
         cache_find path (meta_cache st') = Some meta
         /\ forall w', load_meta w' path st' = (Returns meta, st')
     | _ => st' = st
     end.
Proof.
  unfold load_meta. intros H.
  destruct (cache_find path (meta_cache st)) as [meta|] eqn:Hc.
  - inversion H; subst. repeat split; auto. intros w'. now rewrite Hc.
  - destruct (read_text w path) as [e|content];
      [inversion H; subst; auto|].
    destruct (parse_meta w content) as [e|meta];
      inversion H; subst; auto.
    assert (Hf : cache_find path (meta_cache st ++ [(path, meta)])
                 = Some meta)
      by now rewrite cache_find_added, Hc, path_eqb_refl.
    repeat split; auto.
    + intros _ q Hq. cbn. rewrite cache_find_added.
      destruct (cache_find q (meta_cache st)); auto.
      destruct (path_eqb q path) eqn:E; auto.
      apply path_eqb_eq in E. contradiction.
    + intros w'. cbn [meta_cache with_cache]. now rewrite Hf.
Qed.

Lemma load_meta_memoizes_witness :
  exists st',
    load_meta Sample.app Sample.deploy Sample.fresh
       = (Returns (PDict [("image", PStr "alpine")]), st')
    /\ load_meta Loop.app Sample.deploy st'
       = (Returns (PDict [("image", PStr "alpine")]), st').
Proof.
  eexists. split; [reflexivity|].
  exact (proj2 (proj2 (proj2 (proj2 (@load_meta_memoizes
           Sample.app Sample.deploy Sample.fresh _ _ eq_refl))))
           Loop.app).
Defined.

(** Without an occurrence of the separator nothing is split off. *)
Lemma split_from_without_sep sep m s :
  contains sep s = false ->
  forall cur, split_from sep 0 (S m) cur s = [rev_string s cur].
Proof.
  induction s as [|c s IH]; intros H cur; [reflexivity|].
  cbn [contains] in H. apply orb_false_iff in H as [H1 H2].
  cbn [split_from]. rewrite H1. now rewrite IH.
Qed.

(** What is left after the last permitted split is one part, and it is the
    same part when one more split is permitted but finds no separator. *)
Lemma split_from_rest sep m s :
  forall skip rest,
    split_from sep skip 0 EmptyString s = [rest] ->
    contains sep rest = false ->
    split_from sep skip (S m) EmptyString s = [rest].
Proof.
  induction s as [|c s IH]; intros skip rest H Hno.
  - exact H.
  - destruct skip as [|k].
    + cbn [split_from] in H. injection H as <-.
      cbn [rev_string] in Hno |- *.
      now rewrite split_from_without_sep.
    + cbn [split_from] in H |- *. now apply IH.
Qed.

Lemma split_once_more sep s :
  forall skip cur pre post,
    split_from sep skip 1 cur s = [pre; post] ->
    contains sep post = false ->
    split_from sep skip 2 cur s = [pre; post].
Proof.
  induction s as [|c s IH]; intros skip cur pre post H Hno.
  - discriminate H.
  - destruct skip as [|k]; cbn [split_from] in H |- *.
    + destruct (starts_with sep (String c s)).
      * injection H as <- H. f_equal. now apply split_from_rest.
      * now apply IH.
    + now apply IH.
Qed.

(** X2: a metadata block that is opened and not closed.  When the first
    line holding three dashes occurs once only in the file (splitting once
    at it leaves a remainder without it), [content.split(sep, 2)] has two
    parts, the unpacking into three names fails and [load_meta] raises
    ValueError; nothing is cached. *)
Theorem load_meta_unclosed_block w path st content sep pre post :
  cache_find path (meta_cache st) = None ->
  read_text w path = inr content ->
  find (contains "---") (splitlines content) = Some sep ->
  Py.split sep 1 content = [pre; post] ->
  contains sep post = false ->
  load_meta w path st = (Raises ValueError, st).
Proof.
  intros Hc Hr Hsep Hsplit Hno. unfold load_meta, parse_meta.
  rewrite Hc, Hr, Hsep. unfold Py.split in *.
  now rewrite (split_once_more _ _ _ _ Hsplit Hno).
Qed.

Lemma load_meta_unclosed_block_witness :
  load_meta Unclosed.app Unclosed.task Sample.fresh
  = (Raises ValueError, Sample.fresh).
Proof.
  apply (@load_meta_unclosed_block
           Unclosed.app Unclosed.task Sample.fresh Unclosed.text "# ---"
           ("#!/bin/sh" ++ nl)
           (nl ++ "# image: alpine" ++ nl ++ "echo hi" ++ nl));
    reflexivity.
Defined.

(** *** Placeholder substitution *)

Lemma starts_with_dollar k t :
  starts_with ("$" ++ k) t = true -> starts_with "$" t = true.
Proof.
  destruct t as [|c t]; cbn [append starts_with]; [discriminate|].
  destruct (Ascii.eqb "$" c); [reflexivity | discriminate].
Qed.

Lemma no_dollar_no_needle k s :
  contains "$" s = false -> contains ("$" ++ k) s = false.
Proof.
  induction s as [|c s IH]; intros H.
  - reflexivity.
  - cbn [contains] in *. apply orb_false_iff in H as [H1 H2].
    apply orb_false_iff. split; [|auto].
    destruct (starts_with ("$" ++ k) (String c s)) eqn:E; auto.
    apply starts_with_dollar in E. congruence.
Qed.

Lemma substitute_all_no_dollar subs s :
  dollar_needles subs ->
  contains "$" s = false ->
  substitute_all subs (PStr s) = inr (PStr s).
Proof.
  intros Hs Hno. induction Hs as [|[needle v] subs [k Hk] _ IH]; auto.
  cbn in Hk. subst needle. cbn [substitute_all substitute].
  pose proof (@no_dollar_no_needle k s Hno) as Hn.
  cbn [append] in Hn |- *. now rewrite Hn.
Qed.

Lemma env_needles_dollar env : dollar_needles (env_needles env).
Proof.
  unfold dollar_needles, env_needles. apply Forall_forall.
  intros sub Hin. apply in_map_iff in Hin as [[k v] [<- _]]. cbn. eauto.
Qed.

Lemma arg_needles_dollar args : dollar_needles (arg_needles args).
Proof.
  unfold dollar_needles, arg_needles. apply Forall_forall.
  intros sub Hin. apply in_map_iff in Hin as [[i v] [<- _]]. cbn. eauto.
Qed.

(** X3: a string without a dollar sign is returned as it is by
    [insert_env_vals], for every environment and argument list, whatever
    the types of the environment's values. *)
Theorem insert_env_vals_without_dollar s env args :
  contains "$" s = false ->
  insert_env_vals (PStr s) env args = inr (PStr s).
Proof.
  intros H. unfold insert_env_vals.
  rewrite (@substitute_all_no_dollar _ s (env_needles_dollar env) H).
  apply (@substitute_all_no_dollar _ s (arg_needles_dollar args) H).
Qed.

Lemma insert_env_vals_without_dollar_witness :
  contains "$" "alpine:3.19" = false
  /\ insert_env_vals (PStr "alpine:3.19")
                     [("PORT", PInt 8080); ("VG_APP_DIR", PStr "/app")]
                     ["x"]
     = inr (PStr "alpine:3.19").
Proof.
  split; [reflexivity|].
  exact (@insert_env_vals_without_dollar "alpine:3.19" _ _ eq_refl).
Defined.

Lemma contains_dollar_app a b :
  contains "$" (a ++ b) = contains "$" a || contains "$" b.
Proof.
  induction a as [|c a IH]; cbn [append contains].
  - destruct b; reflexivity.
  - rewrite IH. cbn [starts_with]. now rewrite orb_assoc.
Qed.

Lemma starts_with_app p t : starts_with p (p ++ t) = true.
Proof.
  induction p as [|c p IH]; cbn [append starts_with]; auto.
  now rewrite Ascii.eqb_refl, IH.
Qed.

Lemma replace_from_skip old new x t :
  replace_from old new (String.length x) (x ++ t)
  = replace_from old new 0 t.
Proof.
  induction x as [|c x IH]; cbn [String.length append]; auto.
Qed.

(** [replace] on a string that starts with the needle. *)
Lemma replace_at_head c old new t :
  replace (String c old) new (String c old ++ t)
  = (new ++ replace (String c old) new t)%string.
Proof.
  unfold replace. cbn [append]. cbn [replace_from].
  change (String c (old ++ t)) with (String c old ++ t)%string.
  rewrite starts_with_app. cbn [String.length].
  replace (S (String.length old) - 1) with (String.length old) by lia.
  now rewrite replace_from_skip.
Qed.

(** X4: the environment is scanned in iteration order and every key is
    replaced wherever its text occurs after a dollar sign, so a key that
    comes first and is the beginning of the placeholder's name takes the
    placeholder: with [k] first in the environment, the string made of the
    dollar sign, [k] and [rest] becomes the value of [k] followed by [rest],
    whatever the later keys are (also a key named [k ++ rest]). *)
Theorem earlier_key_shadows_longer_one k rest v env args :
  contains "$" v = false ->
  contains "$" rest = false ->
  insert_env_vals (PStr ("$" ++ k ++ rest)) ((k, PStr v) :: env) args
  = inr (PStr (v ++ rest)).
Proof.
  intros Hv Hrest.
  assert (Hclean : contains "$" (v ++ rest) = false)
    by (rewrite contains_dollar_app, Hv, Hrest; reflexivity).
  assert (Hfirst :
    substitute ("$" ++ k) (PStr v) (PStr ("$" ++ k ++ rest))
    = inr (PStr (v ++ rest))).
  { rewrite substitute_str. do 2 f_equal.
    change ("$" ++ k ++ rest)%string with (String "$" k ++ rest)%string.
    change ("$" ++ k)%string with (String "$" k).
    rewrite replace_at_head. f_equal.
    apply contains_false_replace.
    now apply no_dollar_no_needle. }
  unfold insert_env_vals. cbn [env_needles map fst snd substitute_all].
  rewrite Hfirst.
  change (map (fun kv : string * pyval => (("$" ++ fst kv)%string, snd kv)) env)
    with (env_needles env).
  rewrite (@substitute_all_no_dollar _ _ (env_needles_dollar env) Hclean).
  apply (@substitute_all_no_dollar _ _ (arg_needles_dollar args) Hclean).
Qed.

Lemma earlier_key_shadows_longer_one_witness :
  insert_env_vals (PStr "$TAGS")
                  [("TAG", PStr "7"); ("TAGS", PStr "a,b")] []
  = inr (PStr "7S").
Proof.
  exact (@earlier_key_shadows_longer_one "TAG" "S" "7"
           [("TAGS", PStr "a,b")] [] eq_refl eq_refl).
Defined.

(** *** Environment layering *)

Lemma dict_get_of_In {V} k (v : V) d :
  wf_dict d -> In (k, v) d -> dict_get k d = Some v.
Proof.
  unfold wf_dict. induction d as [|[k' v'] d IH]; cbn; intros Hwf Hin;
    [contradiction|].
  inversion Hwf as [|? ? Hnotin Hnd]; subst.
  destruct Hin as [Heq | Hin].
  - injection Heq as -> ->. now rewrite String.eqb_refl.
  - destruct (String.eqb k k') eqn:E; auto.
    apply String.eqb_eq in E. subst k'.
    exfalso. apply Hnotin. change k with (fst (k, v)). now apply in_map.
Qed.

Lemma dict_set_present {V} k (v : V) d :
  dict_get k d = Some v -> dict_set k v d = d.
Proof.
  induction d as [|[k' v'] d IH]; cbn; [discriminate|].
  destruct (String.eqb k k') eqn:E.
  - intros H. injection H as ->. reflexivity.
  - intros H. now rewrite IH.
Qed.

Lemma dict_update_absorbed {V} (d o : list (string * V)) :
  (forall k v, In (k, v) o -> dict_get k d = Some v) ->
  dict_update d o = d.
Proof.
  unfold dict_update. induction o as [|[k v] o IH]; cbn; auto.
  intros H. rewrite dict_set_present by (apply H; now left).
  apply IH. intros k' v' Hin. apply H. now right.
Qed.

(** Merging the same mapping a second time changes nothing. *)
Lemma dict_update_twice {V} (d o : list (string * V)) :
  wf_dict o -> dict_update (dict_update d o) o = dict_update d o.
Proof.
  intros Hwf. apply dict_update_absorbed. intros k v Hin.
  rewrite dict_get_update by assumption.
  now rewrite (dict_get_of_In _ _ Hwf Hin).
Qed.

Lemma cache_modify_same p f c m :
  cache_find p c = Some m -> f m = m -> cache_modify p f c = c.
Proof.
  induction c as [|[q x] c IH]; cbn; auto.
  destruct (path_eqb p q).
  - intros H Hf. injection H as ->. now rewrite Hf.
  - intros H Hf. now rewrite IH.
Qed.

Lemma dict_set_set {V} k (v v' : V) d :
  dict_set k v (dict_set k v' d) = dict_set k v d.
Proof.
  induction d as [|[k0 v0] d IH]; cbn.
  - now rewrite String.eqb_refl.
  - destruct (String.eqb k k0) eqn:E; cbn; rewrite E; auto.
    now rewrite IH.
Qed.

(** X5: [update_env] is idempotent on the store.  After one run on the
    context object, a second run on the same task returns the same
    environment object and leaves the context object and the cached
    metadata exactly as the first run left them. *)
Theorem update_env_twice path m O D st :
  meta_at path st = PDict m ->
  get_or_none "overrides" m = field_of O ->
  get_or_none "defaults" m = field_of D ->
  has_key "VG_VERBOSE" (ctx_obj st) = true ->
  wf_dict (ctx_obj st) ->
  wf_dict (or_empty O) ->
  exists env st1,
    update_env path CtxObj st = (Returns env, st1)
    /\ update_env path CtxObj st1 = (Returns env, st1).
Proof.
  intros Hm HO HD Hv HwE HwO.
  rewrite (@update_env_run path m O D st Hm HO HD Hv HwO).
  set (E1 := after_overrides O (ctx_obj st)).
  assert (HwE1 : wf_dict E1) by now apply after_overrides_wf.
  assert (Hv1 : has_key "VG_VERBOSE" E1 = true).
  { unfold has_key, E1. rewrite after_overrides_get by assumption.
    destruct (dict_get "VG_VERBOSE" (or_empty O)); auto. }
  assert (Hagain : after_overrides O E1 = E1).
  { unfold E1. destruct O as [o|]; cbn; auto.
    now apply dict_update_twice. }
  destruct D as [d|].
  - set (D1 := dict_update d E1).
    set (m1 := dict_set "defaults" (PDict D1) m).
    set (st1 := assign_env (MetaDefaults path) D1
                           (mkState E1 (meta_cache st) (trace st))).
    exists (MetaDefaults path), st1. split; [reflexivity|].
    assert (Hm1 : meta_at path st1 = PDict m1)
      by (apply meta_at_assign_defaults; exact Hm).
    assert (HO1 : get_or_none "overrides" m1 = field_of O).
    { unfold get_or_none, m1.
      rewrite dict_get_set_other by discriminate. exact HO. }
    assert (HD1 : get_or_none "defaults" m1 = field_of (Some D1)).
    { unfold get_or_none, m1. now rewrite dict_get_set_same. }
    rewrite (@update_env_run path m1 O (Some D1) st1 Hm1 HO1 HD1 Hv1 HwO).
    assert (Hobj : ctx_obj st1 = E1) by reflexivity.
    rewrite Hobj, Hagain.
    assert (HD2 : dict_update D1 E1 = D1)
      by (unfold D1; now apply dict_update_twice).
    rewrite HD2. f_equal.
    pose proof (@meta_at_dict _ _ _ Hm1) as Hc.
    transitivity (mkState E1 (cache_modify path
                                (set_field "defaults" (PDict D1))
                                (meta_cache st1)) (trace st));
      [reflexivity|].
    rewrite (@cache_modify_same path (set_field "defaults" (PDict D1))
               (meta_cache st1) (PDict m1) Hc).
    + reflexivity.
    + cbn [set_field]. unfold m1. now rewrite dict_set_set.
  - set (st1 := mkState E1 (meta_cache st) (trace st)).
    exists CtxObj, st1. split; [reflexivity|].
    assert (Hm1 : meta_at path st1 = PDict m) by exact Hm.
    rewrite (@update_env_run path m O None st1 Hm1 HO HD Hv1 HwO).
    cbn [ctx_obj st1 meta_cache trace]. fold E1. now rewrite Hagain.
Qed.

Lemma update_env_twice_witness :
  exists env st1,
    update_env Sample.build CtxObj (Sample.layered_cached Sample.environment)
    = (Returns env, st1)
    /\ update_env Sample.build CtxObj st1 = (Returns env, st1).
Proof.
  apply (@update_env_twice
           Sample.build
           [("overrides", PDict [("A", PStr "o")]);
            ("defaults", PDict [("A", PStr "d"); ("B", PStr "d")])]
           (Some [("A", PStr "o")])
           (Some [("A", PStr "d"); ("B", PStr "d")])
           (Sample.layered_cached Sample.environment));
    try reflexivity; prove_wf.
Defined.

(** *** Task lookup *)

Lemma get_task_from_dir_some_is_dir w dir_ name st t st' :
  get_task_from_dir w dir_ name st = (Returns (Some t), st') ->
  is_dir w dir_ = true.
Proof.
  unfold get_task_from_dir, is_dir.
  destruct (lookup_node w dir_) as [[x content|entries]|];
    try discriminate; auto.
Qed.

(** X6: the tasks directory is searched before the plugins directory: a
    task found in the tasks directory is the result of [get_task], and the
    plugins directory is not consulted (no metadata of a plugin is
    loaded). *)
Theorem get_task_first_root_wins w env name st task_dir plugins_dir t st' :
  get_task_dir (env_at env st) = inr task_dir ->
  get_plugins_dir (env_at env st) = inr plugins_dir ->
  get_task_from_dir w task_dir name st = (Returns (Some t), st') ->
  get_task w env (PStr name) st = (Returns (Some t), st').
Proof.
  intros Ht Hp Hfound. unfold get_task, bind, read_env.
  rewrite Ht, Hp. cbn [lift ret search_roots].
  rewrite (get_task_from_dir_some_is_dir _ _ _ _ Hfound).
  unfold bind. now rewrite Hfound.
Qed.

Lemma get_task_first_root_wins_witness :
  get_task_from_dir Plugins.app ["app"; "tasks"] "build" Sample.fresh
  = (Returns (Some (Command "build" Sample.build PNone)),
     with_cache [(Sample.build, Sample.build_meta)] Sample.fresh)
  /\ is_executable Plugins.app ["app"; ".vg-plugins"; "build"] = true
  /\ get_task Plugins.app CtxObj (PStr "build") Sample.fresh
     = (Returns (Some (Command "build" Sample.build PNone)),
        with_cache [(Sample.build, Sample.build_meta)] Sample.fresh).
Proof.
  split; [reflexivity | split; [reflexivity|]].
  exact (@get_task_first_root_wins
           Plugins.app CtxObj "build" Sample.fresh
           ["app"; "tasks"] ["app"; ".vg-plugins"] _ _
           eq_refl eq_refl eq_refl).
Defined.



Lemma cache_find_kept p c q m x :
  cache_find p c = Some x -> cache_find p (c ++ [(q, m)]) = Some x.
Proof.
  induction c as [|[q0 m0] c IH]; cbn; [discriminate|].
  destruct (path_eqb p q0); auto.
Qed.

Lemma loads_only_bind {A B} (m : M A) (k : A -> M B) :
  loads_only m -> (forall a, loads_only (k a)) -> loads_only (bind m k).
Proof.
  intros Hm Hk st r st' H. unfold bind in H.
  destruct (m st) as [[a|e|code|] st1] eqn:E;
    destruct (Hm _ _ _ E) as (Hc & Ht & Hx).
  - destruct (Hk a _ _ _ H) as (Hc' & Ht' & Hx').
    repeat split; try congruence.
    intros p x Hp. auto.
  - inversion H; subst. auto.
  - inversion H; subst. auto.
  - inversion H; subst. auto.
Qed.

Lemma loads_only_load_meta w path : loads_only (load_meta w path).
Proof.
  intros st r st' H. unfold load_meta in H.
  destruct (cache_find path (meta_cache st)) as [meta|];
    [inversion H; subst; repeat split; auto; intros ? ? Hp; exact Hp|].
  destruct (read_text w path) as [e0|content];
    [inversion H; subst; repeat split; auto; intros ? ? Hp; exact Hp|].
  destruct (parse_meta w content) as [e|meta]; inversion H; subst;
    repeat split; auto; intros q x Hq; auto.
  now apply cache_find_kept.
Qed.

Ltac loads_base :=
  let H := fresh "H" in
  intros ? ? ? H;
  cbv [ret raise lift py_get read_env] in H;
  repeat match type of H with
         | context [match ?x with _ => _ end] => destruct x
         end;
  inversion H; subst; repeat split;
  let Hp := fresh "Hp" in intros ? ? Hp; exact Hp.

Ltac loads_step bind_lemma :=
  match goal with
  | |- loads_only (bind _ _) => apply bind_lemma; [|intros]
  | |- loads_only (if ?b then _ else _) => destruct b
  | |- loads_only (match ?x with _ => _ end) => destruct x
  | |- loads_only _ => solve [auto]
  | |- loads_only _ => solve [loads_base]
  end.

Section LoadsOnly.
Variable w : world.

Lemma loads_only_as_command path : loads_only (as_command w path).
Proof.
  pose proof (loads_only_load_meta w).
  unfold as_command. repeat loads_step @loads_only_bind.
Qed.

Lemma loads_only_group_children path entries :
  forall commands, loads_only (group_children w path entries commands).
Proof.
  pose proof loads_only_as_command.
  induction entries as [|[c child] entries IH]; intros commands;
    cbn [group_children]; repeat loads_step @loads_only_bind.
Qed.

Lemma loads_only_as_group n path : loads_only (as_group w n path).
Proof.
  pose proof loads_only_group_children.
  unfold as_group. repeat loads_step @loads_only_bind.
Qed.

Lemma loads_only_get_task_from_node :
  forall n dir_ name, loads_only (get_task_from_node w n dir_ name).
Proof.
  pose proof loads_only_as_command as Hc.
  pose proof loads_only_as_group as Hg.
  fix IH 1. intros [x content|entries] dir_ name;
    cbn [get_task_from_node]; [loads_base|].
  destruct (node_is_executable (dict_get name entries));
    [repeat loads_step @loads_only_bind|].
  destruct (find entry_is_executable (glob entries name)) as [[c child]|];
    [repeat loads_step @loads_only_bind|].
  generalize (match rev (glob entries name) with
              | (c, _) :: _ => c
              | [] => name
              end).
  intros target.
  induction entries as [|[c child] l IHl]; [loads_base|].
  destruct (String.eqb target c); [|exact IHl].
  pose proof (IH child (join dir_ c) name) as Hchild.
  destruct child as [x content|inner]; [loads_base|].
  apply loads_only_bind; [exact Hchild|].
  clear IH IHl Hchild. intros [t|]; repeat loads_step @loads_only_bind.
Qed.

Lemma loads_only_search_roots roots name :
  loads_only (search_roots w roots name).
Proof.
  pose proof loads_only_get_task_from_node.
  induction roots as [|dir_ roots IH]; cbn [search_roots];
    unfold get_task_from_dir; repeat loads_step @loads_only_bind.
Qed.
End LoadsOnly.

(** X8: looking a task up has no effect but loading metadata.  Whatever
    [get_task] returns or raises, the context object and the list of
    spawned processes are unchanged and the lookup never exits the
    program; and when what the lookup has loaded fits into the cache
    together with what was there, every object the metadata cache held is
    still held, unchanged, under its path. *)
Theorem get_task_only_adds_to_cache w env name st r st' :
  get_task w env name st = (r, st') ->
  ctx_obj st' = ctx_obj st
  /\ trace st' = trace st
  /\ (forall code, r <> Exits code)
  /\ (List.length (meta_cache st') <= maxsize ->
      forall p m, cache_find p (meta_cache st) = Some m ->
                  cache_find p (meta_cache st') = Some m).
Proof.
  intros H.
  assert (Hl : loads_only (get_task w env name)).
  { pose proof (loads_only_search_roots w).
    unfold get_task. repeat loads_step @loads_only_bind. }
  destruct (Hl _ _ _ H) as (Hc & Ht & Hx).
  destruct (@quiet_get_task w env name _ _ _ H) as [_ Hq].
  repeat split; auto.
  intros code ->. discriminate Hq.
Qed.

Lemma get_task_only_adds_to_cache_witness :
  exists st',
    get_task Sample.app CtxObj (PStr "build") Sample.spec_cached
    = (Returns (Some (Command "build" Sample.build PNone)), st')
    /\ ctx_obj st' = ctx_obj Sample.spec_cached
    /\ trace st' = trace Sample.spec_cached
    /\ (forall p m, cache_find p (meta_cache Sample.spec_cached) = Some m ->
                    cache_find p (meta_cache st') = Some m).
Proof.
  eexists. split; [reflexivity|].
  destruct (@get_task_only_adds_to_cache
              Sample.app CtxObj (PStr "build") Sample.spec_cached _ _
              eq_refl) as (Hc & Ht & _ & Hx).
  repeat split; auto.
  apply Hx. apply Nat.leb_le. reflexivity.
Defined.



Lemma dict_set_Forall {V} (P : string * V -> Prop) k v d :
  Forall P d -> P (k, v) -> Forall P (dict_set k v d).
Proof.
  intros Hd Hk. induction Hd as [|[k' v'] d Hkv Hd IH]; cbn.
  - repeat constructor. exact Hk.
  - destruct (String.eqb k k') eqn:E.
    + apply String.eqb_eq in E. subst k'. constructor; auto.
    + constructor; auto.
Qed.

Lemma as_command_returns w path st cmd st' :
  as_command w path st = (Returns cmd, st') ->
  exists help, cmd = Command (stem path) path help.
Proof.
  unfold as_command. intros H.
  step_as H Hload. step_as H Hget.
  unfold ret in H. injection H as <- <-. eauto.
Qed.

Lemma group_children_registered w path all entries :
  (forall e, In e entries -> In e all) ->
  forall commands st cmds st',
    wf_dict commands ->
    Forall (registered path all) commands ->
    group_children w path entries commands st = (Returns cmds, st') ->
    wf_dict cmds /\ Forall (registered path all) cmds.
Proof.
  induction entries as [|[c child] entries IH]; intros Hsub commands st cmds st'
    Hwf Hreg H; cbn [group_children] in H.
  - unfold ret in H. injection H as <- <-. auto.
  - assert (Hin : In (c, child) all) by (apply Hsub; now left).
    assert (Hsub' : forall e, In e entries -> In e all)
      by (intros e He; apply Hsub; now right).
    destruct child as [[|] content|sub].
    + step_as H Hcmd.
      destruct (as_command_returns _ _ _ Hcmd) as [help ->].
      apply (IH Hsub') in H; auto.
      * now apply wf_dict_set.
      * apply dict_set_Forall; auto.
        repeat split; auto. exists c, (File true content). auto.
    + apply (IH Hsub') in H; auto.
    + apply (IH Hsub') in H; auto.
      * now apply wf_dict_set.
      * apply dict_set_Forall; auto.
        repeat split; auto. exists c, (Dir sub). auto.
Qed.

(** X12: the commands of a group built by [as_group].  The group is named
    by the stem of its path; its commands have distinct keys, and each is
    registered under its own name, comes from an entry of the directory
    that is a folder or an executable file, has that entry's path and the
    stem of that entry as its name, and, when it is itself a group, has no
    commands (the walk is one level deep). *)
Theorem as_group_registers_named_commands w entries path st g st' :
  as_group w (Dir entries) path st = (Returns g, st') ->
  exists commands,
    g = Group (stem path) path commands
    /\ wf_dict commands
    /\ Forall (registered path entries) commands.
Proof.
  unfold as_group. intros H. step_as H Hch.
  unfold ret in H. injection H as <- <-.
  eexists. split; [reflexivity|].
  apply (@group_children_registered w path entries entries) in Hch; auto;
    constructor.
Qed.

Lemma as_group_registers_named_commands_witness :
  exists st' commands,
    as_group Sample.app Sample.tasks ["app"; "tasks"] Sample.fresh
    = (Returns (Group "tasks" ["app"; "tasks"] commands), st')
    /\ keys commands = ["build"; "setup"; "fail"; "deploy"; "foo"; "bar"]
    /\ wf_dict commands
    /\ Forall (registered ["app"; "tasks"]
                          (match Sample.tasks with
                           | Dir es => es
                           | File _ _ => []
                           end)) commands.
Proof.
  destruct (as_group Sample.app Sample.tasks ["app"; "tasks"] Sample.fresh)
    as [r st'] eqn:E.
  assert (Hr : exists commands,
             r = Returns (Group "tasks" ["app"; "tasks"] commands)
             /\ keys commands
                = ["build"; "setup"; "fail"; "deploy"; "foo"; "bar"]).
  { vm_compute in E. injection E as <- _. eexists. split; reflexivity. }
  destruct Hr as (commands & -> & Hk).
  destruct (@as_group_registers_named_commands
              Sample.app _ ["app"; "tasks"] Sample.fresh _ st' E)
    as (commands' & Heq & Hwf & Hreg).
  injection Heq as ->.
  exists st', commands'. auto.
Defined.

Lemma rfind_dot_some s :
  forall i0 found j,
    rfind_dot s i0 found = Some j ->
    found = Some j
    \/ (i0 <= j /\ String.get (j - i0) s = Some "."%char).
Proof.
  induction s as [|c s IH]; intros i0 found j H; cbn [rfind_dot] in H; auto.
  apply IH in H as [H | [Hle Hget]].
  - destruct (Ascii.eqb c ".") eqn:E; auto.
    injection H as <-. right. split; auto.
    rewrite Nat.sub_diag. cbn. apply Ascii.eqb_eq in E. now subst.
  - right. split; [lia|].
    replace (j - i0) with (S (j - S i0)) by lia. exact Hget.
Qed.

Lemma starts_with_upto i :
  forall s c,
    String.get i s = Some c ->
    starts_with (substring 0 i s ++ String c EmptyString) s = true.
Proof.
  induction i as [|i IH]; intros [|a s] c H; try discriminate.
  - cbn in H. injection H as <-. cbn [substring append starts_with].
    now rewrite Ascii.eqb_refl.
  - cbn [String.get] in H. cbn [substring append starts_with].
    now rewrite Ascii.eqb_refl, IH.
Qed.

(** The stem of an entry is the entry's name or what precedes a dot in
    it. *)
Lemma stem_of_entry dir_ c :
  stem (join dir_ c) = c
  \/ starts_with (stem (join dir_ c) ++ ".") c = true.
Proof.
  unfold stem, join, basename. rewrite last_last.
  destruct (rfind_dot c 0 None) as [i|] eqn:E; auto.
  destruct (Nat.ltb 0 i && Nat.ltb i (String.length c - 1)); auto.
  apply rfind_dot_some in E as [E | [_ E]]; [discriminate|].
  rewrite Nat.sub_0_r in E. right. now apply starts_with_upto.
Qed.

Lemma find_of_In {A} (f : A -> bool) l x :
  In x l -> f x = true -> exists y, find f l = Some y.
Proof.
  intros Hin Hf. destruct (find f l) eqn:E; eauto.
  rewrite (find_none f l E x Hin) in Hf. discriminate.
Qed.

(** X11: what [get_task_names] lists for an executable file can be looked
    up, when the listed name holds no pattern character.  For an
    executable entry [c] of a directory whose stem is a plain name, the
    stem of [c] is among the listed names, and [get_task_from_dir] on that
    stem is [as_command] of an executable entry of the directory (the file
    named by the stem when there is one, else the first executable
    [stem.*] entry). *)
Theorem listed_executable_is_found w dir_ entries c content st :
  lookup_node w dir_ = Some (Dir entries) ->
  wf_dict entries ->
  In (c, File true content) entries ->
  plain_name (stem (join dir_ c)) = true ->
  let name := stem (join dir_ c) in
  In name (listed_names w dir_)
  /\ exists target child,
      In (target, child) entries
      /\ node_is_executable (Some child) = true
      /\ get_task_from_dir w dir_ name st
         = (cmd <- as_command w (join dir_ target) ;; ret (Some cmd)) st.
Proof.
  intros Hnode Hwf Hin _ name. split.
  - unfold listed_names. rewrite Hnode.
    change name with ((fun e : string * node => stem (join dir_ (fst e)))
                        (c, File true content)).
    apply in_map, filter_In. auto.
  - unfold get_task_from_dir. rewrite Hnode. cbn [get_task_from_node].
    destruct (node_is_executable (dict_get name entries)) eqn:Hdirect.
    + destruct (dict_get name entries) as [child|] eqn:Hget;
        [|discriminate].
      exists name, child. repeat split; auto. now apply dict_get_In.
    + assert (Hmatch : In (c, File true content) (glob entries name)).
      { apply filter_In. split; auto. cbn [fst].
        destruct (stem_of_entry dir_ c) as [Heq | Hpre]; auto.
        fold name in Heq. exfalso.
        rewrite Heq, (dict_get_of_In _ _ Hwf Hin) in Hdirect.
        discriminate. }
      destruct (find_of_In entry_is_executable _ _ Hmatch eq_refl)
        as [[target child] Hfind].
      rewrite Hfind. apply find_some in Hfind as [Hg Hx].
      apply filter_In in Hg as [Hg _].
      exists target, child. auto.
Qed.

Lemma listed_executable_is_found_witness :
  In "deploy" (listed_names Sample.app ["app"; "tasks"])
  /\ exists target child,
      In (target, child) (match Sample.tasks with
                          | Dir es => es
                          | File _ _ => []
                          end)
      /\ node_is_executable (Some child) = true
      /\ get_task_from_dir Sample.app ["app"; "tasks"] "deploy" Sample.fresh
         = (cmd <- as_command Sample.app (join ["app"; "tasks"] target) ;;
            ret (Some cmd)) Sample.fresh.
Proof.
  apply (@listed_executable_is_found
           Sample.app ["app"; "tasks"] _ "deploy" Sample.deploy_text
           Sample.fresh eq_refl).
  - prove_wf.
  - cbn. auto 10.
  - reflexivity.
Defined.



(** *** Running a task *)

Lemma update_env_without_fields path m env st :
  meta_at path st = PDict m ->
  get_or_none "overrides" m = PNone ->
  get_or_none "defaults" m = PNone ->
  update_env path env st = (Returns env, st).
Proof.
  intros Hm HO HD. unfold update_env, bind, read_meta.
  rewrite Hm. cbn [py_get ret]. rewrite HO. cbn [is_none ret].
  rewrite Hm. cbn [py_get ret]. rewrite HD. reflexivity.
Qed.

Lemma env_at_assign_env env d st :
  env_bound env st -> env_at env (assign_env env d st) = d.
Proof.
  destruct env as [|p]; cbn; auto.
  intros (m & d0 & Hm & _). apply meta_at_dict in Hm.
  unfold meta_at. cbn. rewrite cache_find_modify, path_eqb_refl, Hm.
  cbn. now rewrite dict_get_set_same.
Qed.

(** X13: a task without an image.  Once the prerequisites are done, the
    process spawned is the task file itself with the user's arguments and
    nothing else, without a tty, in the directory [VG_APP_DIR], under the
    effective environment with [PATH] set to the ambient [PATH]; [PATH] is
    written into the environment object itself (the context object or the
    cached defaults), and the run ends as the exit code of that process
    says. *)
Theorem plain_task_invocation w fuel path args st env st1 m cwd :
  prepare w (task_cmd w fuel) path args st = (Returns env, st1) ->
  meta_at path st1 = PDict m ->
  truthy (get_or_none "image" m) = false ->
  env_bound env st1 ->
  dict_get "VG_APP_DIR" (env_at env st1) = Some cwd ->
  let e := dict_set "PATH" (ambient_path w) (env_at env st1) in
  let inv := mkInvocation (str_of_path path) (map PStr args) false e cwd in
  let st2 := assign_env env e st1 in
  task_cmd w (S fuel) path args st
  = (exit_outcome (spawn w (trace st1) inv),
     mkState (ctx_obj st2) (meta_cache st2) (trace st1 ++ [inv])).
Proof.
  intros Hprep Hm Himg Hb Hcwd e inv st2.
  rewrite (@task_cmd_step _ _ _ _ _ _ _ Hprep).
  unfold run_task, build_invocation, bind, read_meta.
  rewrite Hm. cbn [py_get ret]. rewrite Himg.
  cbn [read_env write_env ret]. fold (ambient_path w). fold e. fold st2.
  assert (He : env_at env st2 = e) by now apply env_at_assign_env.
  rewrite He. unfold getitem.
  assert (Hc : dict_get "VG_APP_DIR" e = Some cwd).
  { subst e. rewrite dict_get_set_other by discriminate. exact Hcwd. }
  rewrite Hc. cbn [ret run_command]. fold inv.
  assert (Ht : trace st2 = trace st1) by (destruct env; reflexivity).
  rewrite Ht. unfold exit_outcome.
  destruct (Z.eqb (spawn w (trace st1) inv) 0); reflexivity.
Qed.

Lemma plain_task_invocation_witness :
  exists st',
    task_cmd Sample.app 1 ["app"; "tasks"; "setup"] ["x"] Sample.fresh
    = (Returns tt, st')
    /\ ctx_obj st'
       = [("VG_APP_DIR", PStr "/app"); ("VG_VERBOSE", PStr EmptyString);
          ("PATH", PStr "/usr/bin")]
    /\ map inv_cmd (trace st') = ["/app/tasks/setup"]
    /\ map inv_args (trace st') = [[PStr "x"]].
Proof.
  eexists.
  rewrite (@plain_task_invocation
             Sample.app 0 ["app"; "tasks"; "setup"] ["x"] Sample.fresh
             CtxObj
             (with_cache [(["app"; "tasks"; "setup"], PDict [])] Sample.fresh)
             [] (PStr "/app") eq_refl eq_refl eq_refl I eq_refl).
  repeat split.
Defined.

Lemma env_at_assign_env_cases env d st :
  env_at env (assign_env env d st) = d
  \/ env_at env (assign_env env d st) = env_at env st.
Proof.
  destruct env as [|p]; cbn; auto.
  unfold meta_at. cbn. rewrite cache_find_modify, path_eqb_refl.
  destruct (cache_find p (meta_cache st)) as [[| | | | |m]|]; cbn; auto.
  left. now rewrite dict_get_set_same.
Qed.

Lemma image_args_env_at path image env args st x s :
  image_args path image env args st = (Returns x, s) ->
  env_at env s = env_at env st.
Proof.
  unfold image_args, dict_pop. intros H.
  destruct image; try (inversion H; subst; reflexivity).
  destruct (dict_get "tag" d); [|discriminate H].
  step_as H Hwrite. unfold write_image in Hwrite.
  injection Hwrite as <- <-.
  step_as H Hread. unfold read_env in Hread. injection Hread as <- <-.
  step_as H Htag.
  destruct (insert_env_vals _ _ _); [discriminate Htag|].
  cbn [lift] in Htag. unfold ret in Htag. injection Htag as <- <-.
  step_as H Hopts.
  destruct (flatten_items _ _ _); [discriminate Hopts|].
  cbn [lift] in Hopts. unfold ret in Hopts. injection Hopts as <- <-.
  unfold ret in H. injection H as <- <-.
  apply env_at_assign_image.
Qed.

Lemma settles_bind {A B} (m : M A) (k : A -> M B) :
  settles m -> (forall a, settles (k a)) -> settles (bind m k).
Proof.
  intros Hm Hk st r st' H. unfold bind in H.
  destruct (m st) as [[a|e|code|] st1] eqn:E.
  - exact (Hk a _ _ _ H).
  - inversion H. discriminate.
  - inversion H. discriminate.
  - now apply Hm in E.
Qed.

Ltac settles_base :=
  let H := fresh "H" in
  intros ? ? ? H;
  cbv [ret raise lift py_get getitem py_items py_iter requires_of
       read_meta read_env write_env write_image assign_env assign_image
       with_cache load_meta] in H;
  repeat match type of H with
         | context [match ?x with _ => _ end] => destruct x
         end;
  inversion H; discriminate.

Ltac settles_step bind_lemma :=
  match goal with
  | |- settles (bind _ _) => apply bind_lemma; [|intros]
  | |- settles (if ?b then _ else _) => destruct b
  | |- settles (match ?x with _ => _ end) => destruct x
  | |- settles (let '(_, _) := ?x in _) => destruct x
  | |- settles _ => solve [auto]
  | |- settles _ => solve [settles_base]
  end.

Lemma settles_build_invocation w path args env :
  settles (build_invocation w path args env).
Proof.
  unfold build_invocation, image_args, dict_pop.
  repeat settles_step @settles_bind.
Qed.

(** X14: the working directory is read by subscript after the invocation
    is built: when the effective environment has no [VG_APP_DIR], the task
    raises and its own process is never spawned. *)
Theorem no_app_dir_no_process w fuel path args st env st1 :
  prepare w (task_cmd w fuel) path args st = (Returns env, st1) ->
  dict_get "VG_APP_DIR" (env_at env st1) = None ->
  exists e st2,
    task_cmd w (S fuel) path args st = (Raises e, st2)
    /\ trace st2 = trace st1.
Proof.
  intros Hprep Hnone.
  rewrite (@task_cmd_step _ _ _ _ _ _ _ Hprep).
  pose proof (@quiet_build_invocation w path args env) as Hq.
  unfold run_task, bind.
  destruct (build_invocation w path args env st1) as [[inv|e|code|] s] eqn:Hb;
    destruct (Hq _ _ _ Hb) as [Ht Hx]; try discriminate Hx; eauto;
    [|now apply settles_build_invocation in Hb].
  exfalso. unfold build_invocation in Hb.
  step_as Hb Hmeta. unfold read_meta in Hmeta. injection Hmeta as <- <-.
  step_as Hb Himage.
  destruct (meta_at path st1); try discriminate Himage.
  cbn [py_get] in Himage. unfold ret in Himage. injection Himage as <- <-.
  step_as Hb Hcall.
  match type of Hcall with
  | _ = (Returns _, ?s') =>
      assert (Hkeep : dict_get "VG_APP_DIR" (env_at env s') = None)
  end.
  { destruct (truthy (get_or_none "image" d)).
    - step_as Hcall Himg. apply image_args_env_at in Himg.
      match type of Hcall with
      | (let '(_, _) := ?x in _) _ = _ => destruct x as [[tty tag] run_args]
      end.
      step_as Hcall Hread. unfold read_env in Hread.
      injection Hread as <- <-.
      unfold ret in Hcall. injection Hcall as <- <-. now rewrite Himg.
    - step_as Hcall Hread. unfold read_env in Hread.
      injection Hread as <- <-.
      step_as Hcall Hwrite. unfold write_env in Hwrite.
      injection Hwrite as <- <-.
      unfold ret in Hcall. injection Hcall as <- <-.
      match goal with
      | |- dict_get _ (env_at env (assign_env env ?e st1)) = None =>
          destruct (env_at_assign_env_cases env e st1) as [-> | ->]; auto
      end.
      now rewrite dict_get_set_other by discriminate. }
  match type of Hb with
  | (let '(_, _) := ?x in _) _ = _ => destruct x as [[cmd cmd_args] tty]
  end.
  step_as Hb Hread. unfold read_env in Hread. injection Hread as <- <-.
  step_as Hb Hget. unfold getitem in Hget. rewrite Hkeep in Hget.
  discriminate Hget.
Qed.

Lemma no_app_dir_no_process_witness :
  exists e st2,
    task_cmd Sample.app 1 ["app"; "tasks"; "setup"] []
             (mkState [("VG_VERBOSE", PStr EmptyString)] [] [])
    = (Raises e, st2)
    /\ trace st2 = [].
Proof.
  exact (@no_app_dir_no_process
           Sample.app 0 ["app"; "tasks"; "setup"] []
           (mkState [("VG_VERBOSE", PStr EmptyString)] [] [])
           CtxObj
           (mkState [("VG_VERBOSE", PStr EmptyString)]
                    [(["app"; "tasks"; "setup"], PDict [])] [])
           eq_refl eq_refl).
Defined.

Lemma quiet_load_meta_only w path : quiet (load_meta w path).
Proof. quiet_base. Qed.

(** X15: a prerequisite that cannot be found.  With [VG_RUN_REQUIRED] set
    and a first prerequisite for which [get_task] returns None, the run
    raises AttributeError (from [t.invoke] on None) before any process is
    spawned. *)
Theorem missing_prerequisite_raises w fuel path args st meta0 st0 env st1 m
        name rest st2 :
  load_meta w path st = (Returns meta0, st0) ->
  update_env path CtxObj st0 = (Returns env, st1) ->
  meta_at path st1 = PDict m ->
  truthy (get_or_none "VG_RUN_REQUIRED" (env_at env st1)) = true ->
  dict_get "requires" m = Some (PList (name :: rest)) ->
  get_task w env name st1 = (Returns None, st2) ->
  task_cmd w (S fuel) path args st = (Raises AttributeError, st2)
  /\ trace st2 = trace st.
Proof.
  intros Hload Hupd Hm Hflag Hreq Hget.
  split;
    [|destruct (@quiet_load_meta_only w path _ _ _ Hload) as [H0 _];
      destruct (@quiet_update_env path CtxObj _ _ _ Hupd) as [H1 _];
      destruct (@quiet_get_task w env name _ _ _ Hget) as [H2 _];
      congruence].
  cbn [task_cmd]. unfold prepare, bind.
  rewrite Hload, Hupd. cbn [read_env read_meta].
  rewrite Hm. cbn [py_get ret].
  rewrite run_required_flag_is_env, Hflag. cbn [truthy requires_of ret].
  rewrite Hreq. cbn [py_iter ret for_each]. unfold bind.
  rewrite Hget. reflexivity.
Qed.

Lemma missing_prerequisite_raises_witness :
  task_cmd Loop.app 1 Loop.again [] Loop.missing
  = (Raises AttributeError, Loop.missing)
  /\ trace Loop.missing = trace Loop.missing.
Proof.
  exact (@missing_prerequisite_raises
           Loop.app 0 Loop.again [] Loop.missing _ Loop.missing
           CtxObj Loop.missing [("requires", PList [PStr "gone"])]
           (PStr "gone") [] Loop.missing
           eq_refl eq_refl eq_refl eq_refl eq_refl eq_refl).
Defined.

(** X16: a task that names itself as its first prerequisite, run with
    [VG_RUN_REQUIRED] set, never reaches its own process: whatever bound is
    put on the depth of the calls, the run exceeds it, and nothing has been
    spawned or changed by then. *)
Theorem self_requiring_task_never_ends w path args st m name rest nm help :
  meta_at path st = PDict m ->
  get_or_none "overrides" m = PNone ->
  get_or_none "defaults" m = PNone ->
  truthy (get_or_none "VG_RUN_REQUIRED" (ctx_obj st)) = true ->
  dict_get "requires" m = Some (PList (PStr name :: rest)) ->
  get_task w CtxObj (PStr name) st
  = (Returns (Some (Command nm path help)), st) ->
  forall fuel, task_cmd w fuel path args st = (OutOfFuel, st).
Proof.
  intros Hm HO HD Hflag Hreq Hget fuel.
  induction fuel as [|fuel IH]; [reflexivity|].
  cbn [task_cmd]. unfold prepare, bind at 1 2.
  assert (Hload : load_meta w path st = (Returns (PDict m), st)).
  { unfold load_meta. now rewrite (meta_at_dict _ _ Hm). }
  rewrite Hload.
  unfold bind at 1.
  rewrite (@update_env_without_fields path m CtxObj st Hm HO HD).
  unfold bind. cbn [read_env read_meta env_at].
  rewrite Hm. cbn [py_get ret].
  rewrite run_required_flag_is_env, Hflag. cbn [truthy requires_of ret].
  rewrite Hreq. cbn [py_iter ret for_each]. unfold bind.
  rewrite Hget. cbn [invoke]. now rewrite IH.
Qed.

Lemma self_requiring_task_never_ends_witness :
  task_cmd Loop.app 1000 Loop.again [] Loop.start = (OutOfFuel, Loop.start).
Proof.
  exact (@self_requiring_task_never_ends
           Loop.app Loop.again [] Loop.start Loop.again_meta "again" []
           "again" PNone eq_refl eq_refl eq_refl eq_refl eq_refl eq_refl
           1000%nat).
Defined.
